(** * ceph-csi: cluster configuration resolver, bounded command executor
      and journal identity allocation.

    The repository files at hand are the tests of the resolver
    ([TestCSIConfig] and its siblings, package [util]) and of the executor
    ([internal/util/cephcmds_test.go]) and the [Snapshot] interface; the
    implementations they exercise are modelled below from the spec, each such
    definition says so in its doc comment. *)

From Stdlib Require Import String Ascii List ZArith NArith Bool Lia.
Import ListNotations.
Open Scope string_scope.
Set Warnings "-register-all".

(* ------------------------------------------------------------------ *)
(** ** The configuration document *)

Module Config.

(** A JSON value as read from the configuration document.  Integers and
    numbers with a fraction or exponent are kept apart: the resolver only
    accepts the former where an integer is expected. *)
Inductive json : Type :=
| JNull : json
| JBool (b : bool) : json
| JInt (z : Z) : json
| JFrac (raw : string) : json
| JStr (s : string) : json
| JArr (l : list json) : json
| JObj (fields : list (string * json)) : json.

(** *** Lexical helpers *)

Definition is_ws (c : ascii) : bool :=
  match c with
  | " "%char | "009"%char | "010"%char | "013"%char => true
  | _ => false
  end.

Fixpoint skip_ws (cs : list ascii) : list ascii :=
  match cs with
  | c :: cs' => if is_ws c then skip_ws cs' else cs
  | [] => []
  end.

Definition digit_val (c : ascii) : option Z :=
  let n := nat_of_ascii c in
  if (48 <=? n)%nat && (n <=? 57)%nat then Some (Z.of_nat (n - 48)) else None.

(** Digits of a number: returns the value, the raw characters and the rest. *)
Fixpoint take_digits (acc : Z) (raw : list ascii) (cs : list ascii)
  : Z * list ascii * list ascii :=
  match cs with
  | c :: cs' =>
      match digit_val c with
      | Some d => take_digits (acc * 10 + d)%Z (raw ++ [c])%list cs'
      | None => (acc, raw, cs)
      end
  | [] => (acc, raw, [])
  end.

(** Hexadecimal digits of a [\u] escape. *)
Definition hex_val (c : ascii) : option N :=
  let n := N_of_ascii c in
  if (48 <=? n)%N && (n <=? 57)%N then Some (n - 48)%N
  else if (97 <=? n)%N && (n <=? 102)%N then Some (n - 87)%N
  else if (65 <=? n)%N && (n <=? 70)%N then Some (n - 55)%N
  else None.

Definition hex4 (a b c d : ascii) : option N :=
  match hex_val a, hex_val b, hex_val c, hex_val d with
  | Some w, Some x, Some y, Some z => Some (((w * 16 + x) * 16 + y) * 16 + z)%N
  | _, _, _, _ => None
  end.

(** The UTF-8 encoding of a code point. *)
Definition utf8_encode (n : N) : list ascii :=
  if (n <? 128)%N then [ascii_of_N n]
  else if (n <? 2048)%N then
    [ascii_of_N (192 + n / 64); ascii_of_N (128 + n mod 64)]%N
  else if (n <? 65536)%N then
    [ascii_of_N (224 + n / 4096); ascii_of_N (128 + (n / 64) mod 64);
     ascii_of_N (128 + n mod 64)]%N
  else
    [ascii_of_N (240 + n / 262144); ascii_of_N (128 + (n / 4096) mod 64);
     ascii_of_N (128 + (n / 64) mod 64); ascii_of_N (128 + n mod 64)]%N.

(** UTF-16 surrogates, as [\u] escapes may hold them. *)
Definition is_surrogate (n : N) : bool := (55296 <=? n)%N && (n <? 57344)%N.
Definition is_high_surrogate (n : N) : bool := (55296 <=? n)%N && (n <? 56320)%N.
Definition is_low_surrogate (n : N) : bool := (56320 <=? n)%N && (n <? 57344)%N.

Definition surrogate_pair (hi lo : N) : N := (65536 + (hi - 55296) * 1024 + (lo - 56320))%N.

(** The replacement character U+FFFD. *)
Definition replacement_char : N := 65533%N.

(** UTF-8 sequences as [utf8.DecodeRune] accepts them. *)
Definition is_cont (c : ascii) : bool :=
  (128 <=? nat_of_ascii c)%nat && (nat_of_ascii c <? 192)%nat.

Definition in_range (lo hi : nat) (c : ascii) : bool :=
  (lo <=? nat_of_ascii c)%nat && (nat_of_ascii c <=? hi)%nat.

Definition valid2 (c c2 : ascii) : bool := in_range 194 223 c && is_cont c2.

Definition valid3 (c c2 c3 : ascii) : bool :=
  ((Nat.eqb (nat_of_ascii c) 224 && in_range 160 191 c2) ||
   (in_range 225 236 c && is_cont c2) ||
   (Nat.eqb (nat_of_ascii c) 237 && in_range 128 159 c2) ||
   (in_range 238 239 c && is_cont c2)) && is_cont c3.

Definition valid4 (c c2 c3 c4 : ascii) : bool :=
  ((Nat.eqb (nat_of_ascii c) 240 && in_range 144 191 c2) ||
   (in_range 241 243 c && is_cont c2) ||
   (Nat.eqb (nat_of_ascii c) 244 && in_range 128 143 c2)) && is_cont c3 && is_cont c4.

(** Body of a string literal after its opening quote (character 34), as
    [encoding/json] unquotes it: the escapes of a quote, a backslash, a
    slash, [b], [f], [n], [r] and [t], and [\u] with four hexadecimal
    digits, written out in UTF-8; a high surrogate followed by a [\u]
    escape of a low surrogate is the code point of the pair, and any other
    surrogate is replaced by U+FFFD.  A raw control character (below 32)
    ends the parse; other single-byte characters and valid UTF-8 sequences
    are kept as they are, and a byte that starts no valid sequence is
    replaced by U+FFFD. *)
Fixpoint take_string (acc : list ascii) (cs : list ascii)
  : option (string * list ascii) :=
  match cs with
  | [] => None
  | "034"%char :: cs' => Some (string_of_list_ascii acc, cs')
  | "092"%char :: e :: cs' =>
      match e with
      | "034"%char | "092"%char | "/"%char => take_string (acc ++ [e])%list cs'
      | "b"%char => take_string (acc ++ ["008"%char])%list cs'
      | "f"%char => take_string (acc ++ ["012"%char])%list cs'
      | "n"%char => take_string (acc ++ ["010"%char])%list cs'
      | "r"%char => take_string (acc ++ ["013"%char])%list cs'
      | "t"%char => take_string (acc ++ ["009"%char])%list cs'
      | "u"%char =>
          match cs' with
          | h1 :: h2 :: h3 :: h4 :: cs1 =>
              match hex4 h1 h2 h3 h4 with
              | None => None
              | Some n =>
                  if is_surrogate n then
                    match cs1 with
                    | "092"%char :: "u"%char :: l1 :: l2 :: l3 :: l4 :: cs2 =>
                        match hex4 l1 l2 l3 l4 with
                        | Some m =>
                            if is_high_surrogate n && is_low_surrogate m
                            then take_string (acc ++ utf8_encode (surrogate_pair n m))%list cs2
                            else take_string (acc ++ utf8_encode replacement_char)%list cs1
                        | None => take_string (acc ++ utf8_encode replacement_char)%list cs1
                        end
                    | _ => take_string (acc ++ utf8_encode replacement_char)%list cs1
                    end
                  else take_string (acc ++ utf8_encode n)%list cs1
              end
          | _ => None
          end
      | _ => None
      end
  | c :: cs' =>
      if (nat_of_ascii c <? 32)%nat then None
      else if (nat_of_ascii c <? 128)%nat then take_string (acc ++ [c])%list cs'
      else
        match cs' with
        | c2 :: cs2 =>
            if valid2 c c2 then take_string (acc ++ [c; c2])%list cs2
            else
              match cs2 with
              | c3 :: cs3 =>
                  if valid3 c c2 c3 then take_string (acc ++ [c; c2; c3])%list cs3
                  else
                    match cs3 with
                    | c4 :: cs4 =>
                        if valid4 c c2 c3 c4 then take_string (acc ++ [c; c2; c3; c4])%list cs4
                        else take_string (acc ++ utf8_encode replacement_char)%list cs'
                    | [] => take_string (acc ++ utf8_encode replacement_char)%list cs'
                    end
              | [] => take_string (acc ++ utf8_encode replacement_char)%list cs'
              end
        | [] => take_string (acc ++ utf8_encode replacement_char)%list cs'
        end
  end.

(** A number: optional minus sign, digits (no leading zero), optional
    fraction and exponent. *)
Definition take_number (cs : list ascii) : option (json * list ascii) :=
  let '(neg, cs1) := match cs with
                     | "-"%char :: r => (true, r)
                     | _ => (false, cs)
                     end in
  let '(v, raw, cs2) := take_digits 0 [] cs1 in
  match raw with
  | [] => None
  | "0"%char :: _ :: _ => None
  | _ =>
    let '(frac, cs3) :=
      match cs2 with
      | "."%char :: r =>
          let '(_, fr, r') := take_digits 0 [] r in
          match fr with [] => (None, cs2) | _ => (Some (["."%char] ++ fr)%list, r') end
      | _ => (Some [], cs2)
      end in
    match frac with
    | None => None
    | Some fr =>
      let '(ex, cs4) :=
        match cs3 with
        | e :: r =>
            if (Ascii.eqb e "e" || Ascii.eqb e "E")%bool then
              let '(sg, r1) := match r with
                               | "+"%char :: r' => (["+"%char], r')
                               | "-"%char :: r' => (["-"%char], r')
                               | _ => ([], r)
                               end in
              let '(_, ed, r2) := take_digits 0 [] r1 in
              match ed with [] => (None, cs3) | _ => (Some ([e] ++ sg ++ ed)%list, r2) end
            else (Some [], cs3)
        | [] => (Some [], cs3)
        end in
      match ex with
      | None => None
      | Some [] =>
          match fr with
          | [] => Some (JInt (if neg then - v else v)%Z, cs4)
          | _ => Some (JFrac (string_of_list_ascii
                   ((if neg then ["-"%char] else []) ++ raw ++ fr)%list), cs4)
          end
      | Some exs => Some (JFrac (string_of_list_ascii
                   ((if neg then ["-"%char] else []) ++ raw ++ fr ++ exs)%list), cs4)
      end
    end
  end.

(** *** The parser, by fuel (one unit per nested value or element). *)

Fixpoint parse_value (fuel : nat) (cs : list ascii) : option (json * list ascii) :=
  match fuel with
  | O => None
  | S f =>
    match skip_ws cs with
    | "n"%char :: "u"%char :: "l"%char :: "l"%char :: r => Some (JNull, r)
    | "t"%char :: "r"%char :: "u"%char :: "e"%char :: r => Some (JBool true, r)
    | "f"%char :: "a"%char :: "l"%char :: "s"%char :: "e"%char :: r =>
        Some (JBool false, r)
    | "034"%char :: r =>
        match take_string [] r with
        | Some (s, r') => Some (JStr s, r')
        | None => None
        end
    | "["%char :: r =>
        match skip_ws r with
        | "]"%char :: r' => Some (JArr [], r')
        | _ =>
          match parse_elems f r with
          | Some (l, r') => Some (JArr l, r')
          | None => None
          end
        end
    | "{"%char :: r =>
        match skip_ws r with
        | "}"%char :: r' => Some (JObj [], r')
        | _ =>
          match parse_members f r with
          | Some (l, r') => Some (JObj l, r')
          | None => None
          end
        end
    | cs' => take_number cs'
    end
  end
(** Elements of a non-empty array, up to and including its closing bracket. *)
with parse_elems (fuel : nat) (cs : list ascii) : option (list json * list ascii) :=
  match fuel with
  | O => None
  | S f =>
    match parse_value f cs with
    | Some (v, r) =>
        match skip_ws r with
        | ","%char :: r' =>
            match parse_elems f r' with
            | Some (vs, r'') => Some (v :: vs, r'')
            | None => None
            end
        | "]"%char :: r' => Some ([v], r')
        | _ => None
        end
    | None => None
    end
  end
(** Members of a non-empty object, up to and including its closing brace. *)
with parse_members (fuel : nat) (cs : list ascii)
  : option (list (string * json) * list ascii) :=
  match fuel with
  | O => None
  | S f =>
    match skip_ws cs with
    | "034"%char :: r =>
      match take_string [] r with
      | Some (k, r1) =>
        match skip_ws r1 with
        | ":"%char :: r2 =>
          match parse_value f r2 with
          | Some (v, r3) =>
              match skip_ws r3 with
              | ","%char :: r4 =>
                  match parse_members f r4 with
                  | Some (ms, r5) => Some ((k, v) :: ms, r5)
                  | None => None
                  end
              | "}"%char :: r4 => Some ([(k, v)], r4)
              | _ => None
              end
          | None => None
          end
        | _ => None
        end
      | None => None
      end
    | _ => None
    end
  end.

(** The whole document is one JSON value, surrounded by white space only. *)
Definition parse_document (txt : string) : option json :=
  let cs := list_ascii_of_string txt in
  match parse_value (S (length cs)) cs with
  | Some (v, rest) => match skip_ws rest with [] => Some v | _ => None end
  | None => None
  end.

(** Documents in the examples are written with [']
    standing for the JSON quote (character 34). *)
Definition doc (s : string) : string :=
  string_of_list_ascii
    (map (fun c => if Ascii.eqb c "'"%char then "034"%char else c)
         (list_ascii_of_string s)).

(** *** Errors and results *)

(** The resolver's error taxonomy (spec section 7); each error carries the
    offending path or cluster identifier. *)
Inductive cfg_error : Type :=
| ConfigUnreadable (path : string)
| ClusterNotFound (clusterID : string)
| MalformedRecord (clusterID : string) (fieldName : string).

Inductive result (A : Type) : Type :=
| Ok (a : A)
| Err (e : cfg_error).
Arguments Ok {A} a.
Arguments Err {A} e.

Definition bind {A B : Type} (m : result A) (k : A -> result B) : result B :=
  match m with
  | Ok a => k a
  | Err e => Err e
  end.

Notation "x <- m ;; k" := (bind m (fun x => k))
  (at level 61, m at next level, right associativity).

(** *** The configuration store *)

(** The file system the resolver reads from: path and content. *)
Definition filesystem := list (string * string).

Fixpoint read_file (fs : filesystem) (path : string) : option string :=
  match fs with
  | [] => None
  | (p, content) :: fs' => if String.eqb p path then Some content else read_file fs' path
  end.

(** A cluster record: the members of one object of the document. *)
Definition record := list (string * json).

(** The value of a member, the first one in document order. *)
Fixpoint field (k : string) (r : record) : option json :=
  match r with
  | [] => None
  | (k', v) :: r' => if String.eqb k' k then Some v else field k r'
  end.

Fixpoint decode_records (l : list json) : option (list record) :=
  match l with
  | [] => Some []
  | JObj r :: l' =>
      match decode_records l' with
      | Some rs => Some (r :: rs)
      | None => None
      end
  | _ :: _ => None
  end.

(** Modelled from the spec: the ConfigStore (section 2), whose code is not
    among the files.  The document is read afresh at every call and must
    be a JSON array of objects; anything else is [ConfigUnreadable]. *)
Definition load_config (fs : filesystem) (path : string) : result (list record) :=
  match read_file fs path with
  | None => Err (ConfigUnreadable path)
  | Some txt =>
      match parse_document txt with
      | Some (JArr l) =>
          match decode_records l with
          | Some rs => Ok rs
          | None => Err (ConfigUnreadable path)
          end
      | _ => Err (ConfigUnreadable path)
      end
  end.

Definition matches_cluster (clusterID : string) (r : record) : bool :=
  match field "clusterID" r with
  | Some (JStr s) => String.eqb s clusterID
  | _ => false
  end.

Fixpoint find_record (clusterID : string) (rs : list record) : option record :=
  match rs with
  | [] => None
  | r :: rs' => if matches_cluster clusterID r then Some r else find_record clusterID rs'
  end.

(** Modelled from the spec: the shared resolution algorithm of section 4.1,
    first record in document order whose [clusterID] equals the request,
    [ClusterNotFound] when there is none. *)
Definition resolve_cluster (fs : filesystem) (path clusterID : string) : result record :=
  rs <- load_config fs path ;;
  match find_record clusterID rs with
  | Some r => Ok r
  | None => Err (ClusterNotFound clusterID)
  end.

Fixpoint strings_of (l : list json) : option (list string) :=
  match l with
  | [] => Some []
  | JStr s :: l' =>
      match strings_of l' with
      | Some ss => Some (s :: ss)
      | None => None
      end
  | _ :: _ => None
  end.

Definition join (l : list string) : string := String.concat "," l.

(** *** The accessors *)

(** Modelled from the spec: [Monitors] (the tests' [Mons]).  The monitor
    list must be present, non-empty (section 3) and made of strings. *)
Definition Mons (fs : filesystem) (path clusterID : string) : result string :=
  r <- resolve_cluster fs path clusterID ;;
  match field "monitors" r with
  | Some (JArr l) =>
      match strings_of l with
      | Some (m :: ms) => Ok (join (m :: ms))
      | _ => Err (MalformedRecord clusterID "monitors")
      end
  | _ => Err (MalformedRecord clusterID "monitors")
  end.

Inductive backend_kind : Type := RBD | CephFS | NFS.

Definition section_name (k : backend_kind) : string :=
  match k with
  | RBD => "rbd"
  | CephFS => "cephfs"
  | NFS => "nfs"
  end.

(** Modelled from the spec: [NetNamespaceFilePath].  An absent section or
    field gives the empty string; the spec allows no error but
    [ClusterNotFound] and [ConfigUnreadable], so a section or field of the
    wrong type makes the document unreadable as a cluster record rather
    than being coerced. *)
Definition GetNetNamespaceFilePath (fs : filesystem) (path clusterID : string)
    (k : backend_kind) : result string :=
  r <- resolve_cluster fs path clusterID ;;
  match field (section_name k) r with
  | None => Ok ""
  | Some (JObj sec) =>
      match field "netNamespaceFilePath" sec with
      | None => Ok ""
      | Some (JStr p) => Ok p
      | Some _ => Err (ConfigUnreadable path)
      end
  | Some _ => Err (ConfigUnreadable path)
  end.

Definition GetRBDNetNamespaceFilePath fs path clusterID :=
  GetNetNamespaceFilePath fs path clusterID RBD.
Definition GetCephFSNetNamespaceFilePath fs path clusterID :=
  GetNetNamespaceFilePath fs path clusterID CephFS.
Definition GetNFSNetNamespaceFilePath fs path clusterID :=
  GetNetNamespaceFilePath fs path clusterID NFS.

(** An optional string member: empty when absent, no coercion otherwise. *)
Definition opt_string (clusterID name : string) (sec : record) : result string :=
  match field name sec with
  | None => Ok ""
  | Some (JStr s) => Ok s
  | Some _ => Err (MalformedRecord clusterID name)
  end.

(** Modelled from the spec: [CephFSMountOptions], kernel and fuse options,
    each empty when unset. *)
Definition GetCephFSMountOptions (fs : filesystem) (path clusterID : string)
    : result (string * string) :=
  r <- resolve_cluster fs path clusterID ;;
  match field "cephfs" r with
  | None => Ok ("", "")
  | Some (JObj sec) =>
      kernel <- opt_string clusterID "kernelMountOptions" sec ;;
      fuse <- opt_string clusterID "fuseMountOptions" sec ;;
      Ok (kernel, fuse)
  | Some _ => Err (MalformedRecord clusterID "cephfs")
  end.

(** Modelled from the spec: [MirrorDaemonCount], 1 when the field is
    absent, the integer when one is present, [MalformedRecord] for any
    other value (no coercion). *)
Definition GetRBDMirrorDaemonCount (fs : filesystem) (path clusterID : string)
    : result Z :=
  r <- resolve_cluster fs path clusterID ;;
  match field "rbd" r with
  | None => Ok 1%Z
  | Some (JObj sec) =>
      match field "mirrorDaemonCount" sec with
      | None => Ok 1%Z
      | Some (JInt n) => Ok n
      | Some _ => Err (MalformedRecord clusterID "rbd.mirrorDaemonCount")
      end
  | Some _ => Err (MalformedRecord clusterID "rbd")
  end.

(** Modelled from the spec: [CrushLocationLabels].  The labels are parsed
    in every case, but only an enabled read affinity reports them. *)
Definition GetCrushLocationLabels (fs : filesystem) (path clusterID : string)
    : result (bool * string) :=
  r <- resolve_cluster fs path clusterID ;;
  match field "readAffinity" r with
  | None => Ok (false, "")
  | Some (JObj ra) =>
      enabled <- match field "enabled" ra with
                 | None => Ok false
                 | Some (JBool b) => Ok b
                 | Some _ => Err (MalformedRecord clusterID "readAffinity.enabled")
                 end ;;
      labels <- match field "crushLocationLabels" ra with
                | None => Ok []
                | Some (JArr l) =>
                    match strings_of l with
                    | Some ls => Ok ls
                    | None =>
                        Err (MalformedRecord clusterID "readAffinity.crushLocationLabels")
                    end
                | Some _ =>
                    Err (MalformedRecord clusterID "readAffinity.crushLocationLabels")
                end ;;
      if enabled then Ok (true, join labels) else Ok (false, "")
  | Some _ => Err (MalformedRecord clusterID "readAffinity")
  end.

End Config.

(* ------------------------------------------------------------------ *)
(** ** The bounded command executor *)

Module Executor.

(** What a program does when run: how long it runs, its exit status, and
    what it writes to standard output and standard error, each chunk with
    the time (since its start) at which it is written. *)
Record behaviour : Type := {
  duration : nat;
  exit_status : Z;
  out_chunks : list (nat * string);
  err_chunks : list (nat * string)
}.

(** The programs installed: [None] when the program cannot be spawned
    (binary not found, permission denied). *)
Definition programs := string -> list string -> option behaviour.

(** The host as seen by the executor: the clock, the next process id and
    the child processes running. *)
Record host : Type := {
  clock : nat;
  next_pid : nat;
  running : list nat
}.

(** The caller's context: an optional absolute deadline, and the time at
    which the owning operation cancels it, if it does. *)
Record context : Type := {
  ctx_deadline : option nat;
  ctx_cancel : option nat
}.

(** The cause of a context's end, as Go's [context] package names it. *)
Inductive ctx_err : Type := DeadlineExceeded | Canceled.

Definition ctx_err_eqb (a b : ctx_err) : bool :=
  match a, b with
  | DeadlineExceeded, DeadlineExceeded | Canceled, Canceled => true
  | _, _ => false
  end.

(** The executor's outcomes (spec sections 4.2 and 7). *)
Inductive exec_error : Type :=
| Timeout (cause : ctx_err)
| CommandFailed (status : Z) (stderr : string)
| SpawnFailed (program : string).

(** [errors.Is]: a [Timeout] wraps the context error that caused it. *)
Definition errors_is (e : exec_error) (target : ctx_err) : bool :=
  match e with
  | Timeout c => ctx_err_eqb c target
  | _ => false
  end.

(** Output captured from a pipe up to (not including) time [t]. *)
Definition captured_before (t : nat) (chunks : list (nat * string)) : string :=
  String.concat "" (map snd (filter (fun c => Nat.ltb (fst c) t) chunks)).

Definition captured_all (chunks : list (nat * string)) : string :=
  String.concat "" (map snd chunks).

(** The effective deadline: the earlier of the caller's and [now + timeout]. *)
Definition effective_deadline (ctx : context) (now timeout : nat) : nat :=
  match ctx_deadline ctx with
  | Some d => Nat.min d (now + timeout)
  | None => now + timeout
  end.

(** The time at which the call's context ends: the effective deadline, or
    the caller's cancellation if that comes first. *)
Definition context_end (ctx : context) (now timeout : nat) : nat :=
  let d := effective_deadline ctx now timeout in
  match ctx_cancel ctx with
  | Some c => if Nat.ltb c d then c else d
  | None => d
  end.

(** Why the call's context ended, as [ctx.Err()] reports it. *)
Definition context_cause (ctx : context) (now timeout : nat) : ctx_err :=
  match ctx_cancel ctx with
  | Some c => if Nat.ltb c (effective_deadline ctx now timeout)
              then Canceled else DeadlineExceeded
  | None => DeadlineExceeded
  end.

(** Modelled from the spec: [RunBounded] (the tests'
    [ExecCommandWithTimeout]), section 4.2.  The child is spawned; if it
    exits before the call's context ends it is reaped and classified by its
    exit status; otherwise it is killed and reaped when the context ends
    (deadline expiry or the caller's cancellation, section 5) and the call
    fails with [Timeout] wrapping the context's error.  The output returned
    is what was captured (section 2: the executor returns captured
    output). *)
Definition ExecCommandWithTimeout (progs : programs) (h : host) (ctx : context)
    (timeout : nat) (program : string) (args : list string)
    : (string * string * option exec_error) * host :=
  let budget := context_end ctx (clock h) timeout - clock h in
  match progs program args with
  | None => (("", "", Some (SpawnFailed program)), h)
  | Some b =>
      let pid := next_pid h in
      let spawned := {| clock := clock h; next_pid := S pid;
                        running := pid :: running h |} in
      if Nat.ltb (duration b) budget then
        let h' := {| clock := clock spawned + duration b;
                     next_pid := next_pid spawned;
                     running := remove Nat.eq_dec pid (running spawned) |} in
        let out := captured_all (out_chunks b) in
        let err := captured_all (err_chunks b) in
        if Z.eqb (exit_status b) 0 then ((out, err, None), h')
        else ((out, err, Some (CommandFailed (exit_status b) err)), h')
      else
        let h' := {| clock := clock spawned + budget;
                     next_pid := next_pid spawned;
                     running := remove Nat.eq_dec pid (running spawned) |} in
        ((captured_before budget (out_chunks b),
          captured_before budget (err_chunks b),
          Some (Timeout (context_cause ctx (clock h) timeout))), h')
  end.

End Executor.

(* ------------------------------------------------------------------ *)
(** ** The journal *)

Module Journal.

Inductive kind : Type := Volume | Snapshot.

Inductive entry_state : Type := Provisional | Ready | Deleting.

(** A journal entry (spec section 3).  The backend identifier is unknown
    until the backend object exists. *)
Record JournalEntry : Type := {
  requestName : string;
  backendID : option string;
  objectUUID : nat;
  ekind : kind;
  parentUUID : option nat;
  state : entry_state
}.

(** The callers of the journal; two suffice for the claims. *)
Definition tid := bool.

(** The journal store: its entries in write order, the next token to mint,
    and the per-name exclusive sections held (name and holder). *)
Record store : Type := {
  entries : list JournalEntry;
  next_uuid : nat;
  locks : list (string * tid)
}.

Fixpoint find_entry (name : string) (es : list JournalEntry) : option JournalEntry :=
  match es with
  | [] => None
  | e :: es' => if String.eqb (requestName e) name then Some e else find_entry name es'
  end.

Fixpoint lock_holder (name : string) (ls : list (string * tid)) : option tid :=
  match ls with
  | [] => None
  | (n, t) :: ls' => if String.eqb n name then Some t else lock_holder name ls'
  end.

Definition release (name : string) (ls : list (string * tid)) : list (string * tid) :=
  filter (fun p => negb (String.eqb (fst p) name)) ls.

(** Mint a fresh token and append a Provisional entry for it. *)
Definition write_provisional (st : store) (name : string) (k : kind)
    (parent : option nat) : JournalEntry * store :=
  let e := {| requestName := name; backendID := None; objectUUID := next_uuid st;
              ekind := k; parentUUID := parent; state := Provisional |} in
  (e, {| entries := entries st ++ [e]; next_uuid := S (next_uuid st);
         locks := locks st |}).

(** Modelled from the spec: [AllocateIdentity] (section 4.3), the body of
    its per-name exclusive section.  An existing entry for the name is
    returned unchanged; otherwise a new token is minted and a Provisional
    entry written. *)
Definition AllocateIdentity (st : store) (name : string) (k : kind)
    (parent : option nat) : JournalEntry * store :=
  match find_entry name (entries st) with
  | Some e => (e, st)
  | None => write_provisional st name k parent
  end.

(** *** Concurrent callers

    Modelled from the spec (section 5): a caller of [AllocateIdentity]
    enters the exclusive section of its name, looks the name up, writes if
    it found nothing, and leaves the section.  Each of these is one atomic
    step; a caller whose name is held by another waits. *)
Inductive pc : Type :=
| Start
| Locked
| Decided (found : option JournalEntry)
| Holding (e : JournalEntry)
| Done (e : JournalEntry).

Record world : Type := {
  jstore : store;
  pcs : tid -> pc
}.

(** What each caller asks for: name, kind and parent. *)
Definition requests := tid -> string * kind * option nat.

Definition set_pc (w : world) (t : tid) (p : pc) (st : store) : world :=
  {| jstore := st;
     pcs := fun t' => if Bool.eqb t' t then p else pcs w t' |}.

Definition step (req : requests) (t : tid) (w : world) : world :=
  let '(name, k, parent) := req t in
  let st := jstore w in
  match pcs w t with
  | Start =>
      match lock_holder name (locks st) with
      | None =>
          set_pc w t Locked
            {| entries := entries st; next_uuid := next_uuid st;
               locks := (name, t) :: locks st |}
      | Some _ => w
      end
  | Locked => set_pc w t (Decided (find_entry name (entries st))) st
  | Decided (Some e) => set_pc w t (Holding e) st
  | Decided None =>
      let '(e, st') := write_provisional st name k parent in
      set_pc w t (Holding e) st'
  | Holding e =>
      set_pc w t (Done e)
        {| entries := entries st; next_uuid := next_uuid st;
           locks := release name (locks st) |}
  | Done _ => w
  end.

(** Run a schedule: the callers that take a step, in order. *)
Fixpoint run (req : requests) (sched : list tid) (w : world) : world :=
  match sched with
  | [] => w
  | t :: sched' => run req sched' (step req t w)
  end.

Definition count_entries (p : JournalEntry -> bool) (es : list JournalEntry) : nat :=
  length (filter p es).

Definition is_provisional (s : entry_state) : bool :=
  match s with Provisional => true | _ => false end.

End Journal.

(* ------------------------------------------------------------------ *)
(** ** Writing a configuration document

    The per-accessor tests build their document with Go's [json.Marshal]
    on a list of cluster records and write it to the file the accessor
    reads.  [json.Marshal] writes compact JSON: no white space, members in
    order, integers in decimal, and strings in quotes as its [appendString]
    escapes them. *)

Module Marshal.
Import Config.

Definition digit_char (d : nat) : ascii := ascii_of_nat (48 + d).

(** Decimal digits of [n], most significant first ([fuel] > [n]). *)
Fixpoint nat_digits (fuel n : nat) : list ascii :=
  match fuel with
  | O => []
  | S f =>
      if Nat.ltb n 10 then [digit_char n]
      else (nat_digits f (Nat.div n 10) ++ [digit_char (Nat.modulo n 10)])%list
  end.

Definition int_chars (z : Z) : list ascii :=
  ((if Z.ltb z 0 then ["-"%char] else []) ++
   nat_digits (S (Z.abs_nat z)) (Z.abs_nat z))%list.

(** A lowercase hexadecimal digit. *)
Definition hex_digit (d : N) : ascii :=
  if (d <? 10)%N then ascii_of_N (48 + d) else ascii_of_N (87 + d).

(** [\u00XX] for a byte. *)
Definition u_escape (c : ascii) : list ascii :=
  ["092"%char; "u"%char; "0"%char; "0"%char;
   hex_digit (N_of_ascii c / 16); hex_digit (N_of_ascii c mod 16)]%N.

(** [appendString] on a single-byte character, HTML escaping on (as
    [json.Marshal] has it): a quote and a backslash with a backslash, the
    control characters with a short escape where there is one and [\u00XX]
    otherwise, [<], [>] and [&] with [\u00XX]; any other character is
    written as it is. *)
Definition escape_ascii (c : ascii) : list ascii :=
  match c with
  | "034"%char => ["092"%char; "034"%char]
  | "092"%char => ["092"%char; "092"%char]
  | "008"%char => ["092"%char; "b"%char]
  | "012"%char => ["092"%char; "f"%char]
  | "010"%char => ["092"%char; "n"%char]
  | "013"%char => ["092"%char; "r"%char]
  | "009"%char => ["092"%char; "t"%char]
  | "<"%char | ">"%char | "&"%char => u_escape c
  | _ => if (nat_of_ascii c <? 32)%nat then u_escape c else [c]
  end.

(** U+2028 and U+2029, which Go writes as [\u2028] and [\u2029]. *)
Definition is_line_sep (c c2 c3 : ascii) : bool :=
  Nat.eqb (nat_of_ascii c) 226 && Nat.eqb (nat_of_ascii c2) 128 &&
  (Nat.eqb (nat_of_ascii c3) 168 || Nat.eqb (nat_of_ascii c3) 169).

Definition line_sep_escape (c3 : ascii) : list ascii :=
  ["092"%char; "u"%char; "2"%char; "0"%char; "2"%char;
   if Nat.eqb (nat_of_ascii c3) 168 then "8"%char else "9"%char].

(** [\ufffd], written for a byte that does not start a valid sequence. *)
Definition replacement_escape : list ascii :=
  ["092"%char; "u"%char; "f"%char; "f"%char; "f"%char; "d"%char].

(** The body of a string as [appendString] writes it: single-byte
    characters by [escape_ascii], valid multi-byte sequences as they are
    (but U+2028 and U+2029 escaped), and an invalid byte as [\ufffd]. *)
Fixpoint escape_bytes (cs : list ascii) : list ascii :=
  match cs with
  | [] => []
  | c :: cs1 =>
      if (nat_of_ascii c <? 128)%nat then (escape_ascii c ++ escape_bytes cs1)%list
      else
        match cs1 with
        | c2 :: cs2 =>
            if valid2 c c2 then c :: c2 :: escape_bytes cs2
            else
              match cs2 with
              | c3 :: cs3 =>
                  if valid3 c c2 c3 then
                    ((if is_line_sep c c2 c3 then line_sep_escape c3 else [c; c2; c3])
                     ++ escape_bytes cs3)%list
                  else
                    match cs3 with
                    | c4 :: cs4 =>
                        if valid4 c c2 c3 c4 then c :: c2 :: c3 :: c4 :: escape_bytes cs4
                        else (replacement_escape ++ escape_bytes cs1)%list
                    | [] => (replacement_escape ++ escape_bytes cs1)%list
                    end
              | [] => (replacement_escape ++ escape_bytes cs1)%list
              end
        | [] => (replacement_escape ++ escape_bytes cs1)%list
        end
  end.

(** Valid UTF-8, by the same walk. *)
Fixpoint valid_utf8 (cs : list ascii) : bool :=
  match cs with
  | [] => true
  | c :: cs1 =>
      if (nat_of_ascii c <? 128)%nat then valid_utf8 cs1
      else
        match cs1 with
        | c2 :: cs2 =>
            if valid2 c c2 then valid_utf8 cs2
            else
              match cs2 with
              | c3 :: cs3 =>
                  if valid3 c c2 c3 then valid_utf8 cs3
                  else
                    match cs3 with
                    | c4 :: cs4 => if valid4 c c2 c3 c4 then valid_utf8 cs4 else false
                    | [] => false
                    end
              | [] => false
              end
        | [] => false
        end
  end.

Definition quote (s : string) : list ascii :=
  ("034"%char :: escape_bytes (list_ascii_of_string s) ++ ["034"%char])%list.

(** Items separated by a comma. *)
Fixpoint sep_by_comma (items : list (list ascii)) : list ascii :=
  match items with
  | [] => []
  | [x] => x
  | x :: items' => (x ++ ","%char :: sep_by_comma items')%list
  end.

Fixpoint marshal (v : json) : list ascii :=
  match v with
  | JNull => list_ascii_of_string "null"
  | JBool true => list_ascii_of_string "true"
  | JBool false => list_ascii_of_string "false"
  | JInt z => int_chars z
  | JFrac raw => list_ascii_of_string raw
  | JStr s => quote s
  | JArr l => ("["%char :: sep_by_comma (map marshal l) ++ ["]"%char])%list
  | JObj ms =>
      ("{"%char :: sep_by_comma (map (fun kv => quote (fst kv) ++ ":"%char :: marshal (snd kv)) ms)
       ++ ["}"%char])%list
  end.

Definition marshal_string (v : json) : string := string_of_list_ascii (marshal v).

(** A string of valid UTF-8, which [json.Marshal] writes without
    replacing any of it. *)
Definition string_ok (s : string) : bool := valid_utf8 (list_ascii_of_string s).

(** Values whose strings and keys are valid UTF-8 and that hold no
    non-integer number (the cluster record has none). *)
Fixpoint marshalable (v : json) : bool :=
  match v with
  | JFrac _ => false
  | JStr s => string_ok s
  | JArr l => forallb marshalable l
  | JObj ms => forallb (fun kv => string_ok (fst kv) && marshalable (snd kv))%bool ms
  | _ => true
  end.

(** A bound on the nesting the parser walks through. *)
Fixpoint jsize (v : json) : nat :=
  match v with
  | JArr l => S (list_sum (map (fun e => S (jsize e)) l))
  | JObj ms => S (list_sum (map (fun kv => S (jsize (snd kv))) ms))
  | _ => 1
  end.

(** The document of a list of cluster records. *)
Definition marshal_records (rs : list record) : string :=
  marshal_string (JArr (map JObj rs)).

End Marshal.

(* ------------------------------------------------------------------ *)
(** ** Facts about the resolver *)

Module ConfigFacts.
Import Config.

(** Every accessor fails with the same error [e]. *)
Definition all_accessors_fail (fs : filesystem) (path clusterID : string)
    (e : cfg_error) : Prop :=
  Mons fs path clusterID = Err e /\
  (forall k, GetNetNamespaceFilePath fs path clusterID k = Err e) /\
  GetCephFSMountOptions fs path clusterID = Err e /\
  GetRBDMirrorDaemonCount fs path clusterID = Err e /\
  GetCrushLocationLabels fs path clusterID = Err e.

(** The file of the resolver's tests. *)
Definition test_path : string := "./test_artifacts/csi-clusters.json".
Definition with_config (txt : string) : filesystem := [(test_path, txt)].

(** *** The document parser on the tests' documents *)

Example parse_empty : parse_document "" = None.
Proof. reflexivity. Qed.

Example parse_empty_list : parse_document " [ ] " = Some (JArr []).
Proof. reflexivity. Qed.

(** The string escapes of JSON: short ones, [\u] ones written out in UTF-8,
    a surrogate pair, and a lone surrogate replaced by U+FFFD. *)
Example parse_string_escapes :
  parse_document (doc "'a\r\b\f\u0026\u00e9\ud83d\ude00\ud800x'")
  = Some (JStr (string_of_list_ascii
       ["a"%char; "013"%char; "008"%char; "012"%char; "&"%char;
        "195"%char; "169"%char; "240"%char; "159"%char; "152"%char; "128"%char;
        "239"%char; "191"%char; "189"%char; "x"%char])).
Proof. reflexivity. Qed.

(** An integer has no leading zero. *)
(** A byte that starts no valid UTF-8 sequence reads as U+FFFD. *)
Example parse_invalid_utf8 :
  parse_document (doc ("'" ++ String "255" "x'"))
  = Some (JStr (string_of_list_ascii ["239"%char; "191"%char; "189"%char; "x"%char])).
Proof. reflexivity. Qed.

Example parse_leading_zero :
  parse_document "[0,-0,10]" = Some (JArr [JInt 0; JInt 0; JInt 10]) /\
  parse_document "02" = None /\ parse_document "-01" = None.
Proof. repeat split; reflexivity. Qed.

Example parse_scenario_a :
  parse_document (doc "[{'clusterID':'c1','monitors':['m1','m2','m3']}]")
  = Some (JArr [JObj [("clusterID", JStr "c1");
                      ("monitors", JArr [JStr "m1"; JStr "m2"; JStr "m3"])]]).
Proof. reflexivity. Qed.


(** *** [TestCSIConfig], step by step *)

Example mons_missing_file : Mons [] test_path "test1" = Err (ConfigUnreadable test_path).
Proof. reflexivity. Qed.

Example mons_empty_file :
  Mons (with_config "") test_path "test1" = Err (ConfigUnreadable test_path).
Proof. reflexivity. Qed.

Example mons_bad_cluster_key :
  Mons (with_config (doc "[{'clusterIDBad':'test2','monitors':['mon1','mon2','mon3']}]"))
    test_path "test2" = Err (ClusterNotFound "test2").
Proof. reflexivity. Qed.

Example mons_bad_monitors_key :
  Mons (with_config (doc "[{'clusterID':'test2','monitorsBad':['mon1','mon2','mon3']}]"))
    test_path "test2" = Err (MalformedRecord "test2" "monitors").
Proof. reflexivity. Qed.

Example mons_bad_monitor :
  Mons (with_config (doc "[{'clusterID':'test2','monitors':['mon1',2,'mon3']}]"))
    test_path "test2" = Err (MalformedRecord "test2" "monitors").
Proof. reflexivity. Qed.

Example mons_other_cluster :
  Mons (with_config (doc "[{'clusterID':'test2','monitors':['mon1','mon2','mon3']}]"))
    test_path "test1" = Err (ClusterNotFound "test1").
Proof. reflexivity. Qed.

Example mons_found :
  Mons (with_config (doc "[{'clusterID':'test2','monitors':['mon1','mon2','mon3']}]"))
    test_path "test2" = Ok "mon1,mon2,mon3".
Proof. reflexivity. Qed.

Definition two_clusters : string :=
  doc "[{'clusterID':'test2','monitors':['mon1','mon2','mon3']},{'clusterID':'test1','monitors':['mon4','mon5','mon6']}]".

Example mons_second_record :
  Mons (with_config two_clusters) test_path "test1" = Ok "mon4,mon5,mon6".
Proof. reflexivity. Qed.

(** *** The documents of the per-accessor tests *)

Definition read_affinity_config : string :=
  doc "[{'clusterID':'cluster-1','readAffinity':{'enabled':true,'crushLocationLabels':['topology.kubernetes.io/region','topology.kubernetes.io/zone','topology.io/rack']}},{'clusterID':'cluster-2','readAffinity':{'enabled':true,'crushLocationLabels':['topology.kubernetes.io/region']}},{'clusterID':'cluster-3','readAffinity':{'enabled':false,'crushLocationLabels':['topology.io/rack']}},{'clusterID':'cluster-4'}]".

Example read_affinity_cluster1 :
  GetCrushLocationLabels (with_config read_affinity_config) test_path "cluster-1"
  = Ok (true, "topology.kubernetes.io/region,topology.kubernetes.io/zone,topology.io/rack").
Proof. reflexivity. Qed.

Example read_affinity_cluster3 :
  GetCrushLocationLabels (with_config read_affinity_config) test_path "cluster-3"
  = Ok (false, "").
Proof. reflexivity. Qed.

Example read_affinity_cluster4 :
  GetCrushLocationLabels (with_config read_affinity_config) test_path "cluster-4"
  = Ok (false, "").
Proof. reflexivity. Qed.

Definition mirror_config (count2 : string) : string :=
  doc ("[{'clusterID':'cluster-1','monitors':['ip-1','ip-2'],'rbd':{'mirrorDaemonCount':"
       ++ count2 ++ "}},{'clusterID':'cluster-2','monitors':['ip-3','ip-4'],'rbd':{'mirrorDaemonCount':4}},{'clusterID':'cluster-3','monitors':['ip-5','ip-6']}]").

Example mirror_count_cluster1 :
  GetRBDMirrorDaemonCount (with_config (mirror_config "2")) test_path "cluster-1" = Ok 2%Z.
Proof. reflexivity. Qed.

Example mirror_count_cluster3 :
  GetRBDMirrorDaemonCount (with_config (mirror_config "2")) test_path "cluster-3" = Ok 1%Z.
Proof. reflexivity. Qed.

Example mirror_count_string :
  GetRBDMirrorDaemonCount (with_config (mirror_config "'2'")) test_path "cluster-1"
  = Err (MalformedRecord "cluster-1" "rbd.mirrorDaemonCount").
Proof. reflexivity. Qed.

Definition netns_config : string :=
  doc "[{'clusterID':'cluster-1','monitors':['ip-1','ip-2'],'nfs':{'netNamespaceFilePath':'/var/lib/kubelet/plugins/nfs.ceph.csi.com/cluster1-net'}},{'clusterID':'cluster-3','monitors':['ip-5','ip-6']}]".

Example netns_nfs_cluster1 :
  GetNFSNetNamespaceFilePath (with_config netns_config) test_path "cluster-1"
  = Ok "/var/lib/kubelet/plugins/nfs.ceph.csi.com/cluster1-net".
Proof. reflexivity. Qed.

Example netns_rbd_cluster1 :
  GetRBDNetNamespaceFilePath (with_config netns_config) test_path "cluster-1" = Ok "".
Proof. reflexivity. Qed.

(** *** General lemmas *)

Lemma bind_err {A B : Type} (e : cfg_error) (k : A -> result B) :
  bind (Err e) k = Err e.
Proof. reflexivity. Qed.

Lemma resolve_err_all (fs : filesystem) (path clusterID : string) (e : cfg_error) :
  resolve_cluster fs path clusterID = Err e -> all_accessors_fail fs path clusterID e.
Proof.
  intros H. unfold all_accessors_fail, Mons, GetNetNamespaceFilePath,
    GetCephFSMountOptions, GetRBDMirrorDaemonCount, GetCrushLocationLabels.
  rewrite H. repeat split.
Qed.

Lemma find_record_none (clusterID : string) (rs : list record) :
  Forall (fun r => matches_cluster clusterID r = false) rs ->
  find_record clusterID rs = None.
Proof.
  induction 1 as [|r rs Hr _ IH]; simpl; [reflexivity|].
  rewrite Hr. exact IH.
Qed.

Lemma find_record_app (clusterID : string) (pre post : list record) (r : record) :
  Forall (fun r' => matches_cluster clusterID r' = false) pre ->
  matches_cluster clusterID r = true ->
  find_record clusterID (pre ++ r :: post) = Some r.
Proof.
  induction 1 as [|r' pre Hr' _ IH]; intros Hr; simpl.
  - rewrite Hr. reflexivity.
  - rewrite Hr'. exact (IH Hr).
Qed.

Lemma find_record_some (clusterID : string) (rs : list record) (r : record) :
  find_record clusterID rs = Some r -> In r rs /\ matches_cluster clusterID r = true.
Proof.
  induction rs as [|r' rs IH]; simpl; [discriminate|].
  destruct (matches_cluster clusterID r') eqn:Hm.
  - intros [= <-]. auto.
  - intros H. destruct (IH H). auto.
Qed.

Lemma find_record_exists (clusterID : string) (rs : list record) (r : record) :
  In r rs -> matches_cluster clusterID r = true ->
  exists r', find_record clusterID rs = Some r'.
Proof.
  induction rs as [|r' rs IH]; simpl; [contradiction|].
  intros [<- | Hin] Hm.
  - rewrite Hm. eauto.
  - destruct (matches_cluster clusterID r'); eauto.
Qed.

Lemma strings_of_map (l : list json) (ss : list string) :
  strings_of l = Some ss -> l = map JStr ss.
Proof.
  revert ss. induction l as [|v l IH]; simpl; intros ss H.
  - injection H as <-. reflexivity.
  - destruct v; try discriminate.
    destruct (strings_of l) as [ss'|] eqn:E; [|discriminate].
    injection H as <-. simpl. f_equal. apply IH. reflexivity.
Qed.

Lemma strings_of_map_JStr (ss : list string) : strings_of (map JStr ss) = Some ss.
Proof.
  induction ss as [|s ss IH]; simpl; [reflexivity|]. rewrite IH. reflexivity.
Qed.

Lemma strings_of_non_string (l : list json) (v : json) :
  In v l -> (forall s, v <> JStr s) -> strings_of l = None.
Proof.
  induction l as [|v' l IH]; simpl; [contradiction|].
  intros [-> | Hin] Hv.
  - destruct v; try reflexivity. exfalso. exact (Hv s eq_refl).
  - destruct v'; try reflexivity. rewrite (IH Hin Hv). reflexivity.
Qed.

Lemma load_config_err (fs : filesystem) (path : string) (e : cfg_error) :
  load_config fs path = Err e -> e = ConfigUnreadable path.
Proof.
  unfold load_config.
  destruct (read_file fs path) as [txt|]; [|congruence].
  destruct (parse_document txt) as [[]|]; try congruence.
  destruct (decode_records l); congruence.
Qed.

Lemma resolve_cluster_err (fs : filesystem) (path clusterID : string) (e : cfg_error) :
  resolve_cluster fs path clusterID = Err e ->
  e = ConfigUnreadable path \/ e = ClusterNotFound clusterID.
Proof.
  unfold resolve_cluster.
  destruct (load_config fs path) as [rs|e'] eqn:L; simpl.
  - destruct (find_record clusterID rs); intros H; [discriminate|].
    injection H as <-. right. reflexivity.
  - intros [= ->]. left. exact (load_config_err _ _ _ L).
Qed.

(** *** Claims about the resolver *)

Definition record_test2 : record :=
  [("clusterID", JStr "test2"); ("monitors", JArr [JStr "mon1"; JStr "mon2"; JStr "mon3"])].
Definition record_test1 : record :=
  [("clusterID", JStr "test1"); ("monitors", JArr [JStr "mon4"; JStr "mon5"; JStr "mon6"])].

(** C3: [Monitors] returns the comma-joined monitors of the first record, in
    document order, whose [clusterID] is the one requested; when that
    identifier is unique each record's identifier resolves to its own
    monitors; and on the document of scenario A, [Monitors] of [c1] is
    [m1,m2,m3]. *)
Theorem Mons_first_match :
  (forall fs path clusterID pre r post ms,
     load_config fs path = Ok (pre ++ r :: post)%list ->
     Forall (fun r' => matches_cluster clusterID r' = false) pre ->
     matches_cluster clusterID r = true ->
     field "monitors" r = Some (JArr (map JStr ms)) -> ms <> [] ->
     Mons fs path clusterID = Ok (join ms)) /\
  (forall fs path clusterID rs r ms,
     load_config fs path = Ok rs -> In r rs -> matches_cluster clusterID r = true ->
     (forall r', In r' rs -> matches_cluster clusterID r' = true -> r' = r) ->
     field "monitors" r = Some (JArr (map JStr ms)) -> ms <> [] ->
     Mons fs path clusterID = Ok (join ms)) /\
  Mons [("p", doc "[{'clusterID':'c1','monitors':['m1','m2','m3']}]")] "p" "c1"
  = Ok "m1,m2,m3".
Proof.
  assert (Hfirst : forall fs path clusterID r,
            resolve_cluster fs path clusterID = Ok r ->
            forall ms, field "monitors" r = Some (JArr (map JStr ms)) -> ms <> [] ->
            Mons fs path clusterID = Ok (join ms)).
  { intros fs path clusterID r Hr ms Hm Hne. unfold Mons. rewrite Hr. simpl.
    rewrite Hm, strings_of_map_JStr. destruct ms; [contradiction|reflexivity]. }
  split; [|split].
  - intros fs path clusterID pre r post ms Hload Hpre Hr. apply (Hfirst _ _ _ r).
    unfold resolve_cluster. rewrite Hload. simpl.
    rewrite (find_record_app _ _ _ _ Hpre Hr). reflexivity.
  - intros fs path clusterID rs r ms Hload Hin Hr Huniq. apply (Hfirst _ _ _ r).
    unfold resolve_cluster. rewrite Hload. simpl.
    destruct (find_record_exists _ _ _ Hin Hr) as [r' Hf].
    destruct (find_record_some _ _ _ Hf) as [Hin' Hm'].
    rewrite Hf, (Huniq r' Hin' Hm'). reflexivity.
  - reflexivity.
Qed.

Lemma Mons_first_match_witness :
  load_config (with_config two_clusters) test_path = Ok ([record_test2] ++ record_test1 :: [])%list /\
  Mons (with_config two_clusters) test_path "test1" = Ok (join ["mon4"; "mon5"; "mon6"]).
Proof.
  split; [reflexivity|].
  apply (proj1 Mons_first_match (with_config two_clusters) test_path "test1"
           [record_test2] record_test1 [] ["mon4"; "mon5"; "mon6"]).
  - reflexivity.
  - constructor; [reflexivity | constructor].
  - reflexivity.
  - reflexivity.
  - discriminate.
Defined.

(** C4: on a document that parses as a sequence of cluster records, an
    identifier that matches no record makes every accessor fail with
    [ClusterNotFound] (never a success). *)
Theorem accessors_cluster_not_found (fs : filesystem) (path clusterID : string)
    (rs : list record) :
  load_config fs path = Ok rs ->
  Forall (fun r => matches_cluster clusterID r = false) rs ->
  all_accessors_fail fs path clusterID (ClusterNotFound clusterID).
Proof.
  intros Hload Hnone. apply resolve_err_all.
  unfold resolve_cluster. rewrite Hload. simpl.
  rewrite (find_record_none _ _ Hnone). reflexivity.
Qed.

Lemma accessors_cluster_not_found_witness :
  load_config (with_config two_clusters) test_path = Ok [record_test2; record_test1] /\
  all_accessors_fail (with_config two_clusters) test_path "test3" (ClusterNotFound "test3").
Proof.
  split; [reflexivity|].
  apply (accessors_cluster_not_found (with_config two_clusters) test_path "test3"
           [record_test2; record_test1]).
  - reflexivity.
  - repeat constructor.
Defined.

(** C5: a zero-byte document fails at parse time, [ConfigUnreadable], for
    every accessor and identifier; any document that parses as a valid
    empty list (whatever its white space) gives [ClusterNotFound]
    instead. *)
Theorem empty_document_unreadable (fs : filesystem) (path clusterID : string) :
  (read_file fs path = Some "" ->
   all_accessors_fail fs path clusterID (ConfigUnreadable path)) /\
  (forall txt, read_file fs path = Some txt -> parse_document txt = Some (JArr []) ->
   all_accessors_fail fs path clusterID (ClusterNotFound clusterID)).
Proof.
  split.
  - intros H. apply resolve_err_all.
    unfold resolve_cluster, load_config. rewrite H. reflexivity.
  - intros txt H Hp. apply resolve_err_all.
    unfold resolve_cluster, load_config. rewrite H, Hp. reflexivity.
Qed.

(** An empty list with white space inside and a trailing newline. *)
Definition empty_list_nl : string := "[ ]" ++ String "010"%char EmptyString.

Lemma empty_document_unreadable_witness :
  all_accessors_fail (with_config "") test_path "test1" (ConfigUnreadable test_path) /\
  all_accessors_fail (with_config empty_list_nl) test_path "test1" (ClusterNotFound "test1").
Proof.
  split.
  - apply (proj1 (empty_document_unreadable (with_config "") test_path "test1")).
    reflexivity.
  - apply (proj2 (empty_document_unreadable (with_config empty_list_nl) test_path "test1")
             empty_list_nl); reflexivity.
Defined.

(** C6: when the matched record lacks [monitors], or one element of its
    monitor list is not a string, [Monitors] fails with [MalformedRecord];
    any list it does return is the record's own list of strings, joined. *)
Theorem Mons_malformed (fs : filesystem) (path clusterID : string) (r : record) :
  resolve_cluster fs path clusterID = Ok r ->
  (field "monitors" r = None ->
   Mons fs path clusterID = Err (MalformedRecord clusterID "monitors")) /\
  (forall l v, field "monitors" r = Some (JArr l) -> In v l -> (forall s, v <> JStr s) ->
   Mons fs path clusterID = Err (MalformedRecord clusterID "monitors")) /\
  (forall out, Mons fs path clusterID = Ok out ->
   exists ms, field "monitors" r = Some (JArr (map JStr ms)) /\ ms <> [] /\ out = join ms).
Proof.
  intros Hr. unfold Mons. rewrite Hr. simpl. split; [|split].
  - intros H. rewrite H. reflexivity.
  - intros l v H Hin Hv. rewrite H, (strings_of_non_string l v Hin Hv). reflexivity.
  - intros out. destruct (field "monitors" r) as [[]|]; try discriminate.
    destruct (strings_of l) as [[|m ms]|] eqn:E; try discriminate.
    intros [= <-]. exists (m :: ms). rewrite (strings_of_map _ _ E).
    split; [reflexivity | split; [discriminate | reflexivity]].
Qed.

Definition bad_monitor_config : string :=
  doc "[{'clusterID':'test2','monitors':['mon1',2,'mon3']}]".

Lemma Mons_malformed_witness :
  Mons (with_config bad_monitor_config) test_path "test2"
  = Err (MalformedRecord "test2" "monitors").
Proof.
  apply (proj1 (proj2 (Mons_malformed (with_config bad_monitor_config) test_path "test2"
    [("clusterID", JStr "test2"); ("monitors", JArr [JStr "mon1"; JInt 2; JStr "mon3"])]
    eq_refl)) [JStr "mon1"; JInt 2; JStr "mon3"] (JInt 2)).
  - reflexivity.
  - simpl. auto.
  - discriminate.
Defined.

(** C7: [MirrorDaemonCount] of a matched record is 1 when
    [rbd.mirrorDaemonCount] is absent, the integer when one is configured,
    and fails with [MalformedRecord] when the field holds anything else,
    such as a string. *)
Theorem mirror_daemon_count (fs : filesystem) (path clusterID : string) (r : record) :
  resolve_cluster fs path clusterID = Ok r ->
  (field "rbd" r = None -> GetRBDMirrorDaemonCount fs path clusterID = Ok 1%Z) /\
  (forall sec, field "rbd" r = Some (JObj sec) -> field "mirrorDaemonCount" sec = None ->
   GetRBDMirrorDaemonCount fs path clusterID = Ok 1%Z) /\
  (forall sec n, field "rbd" r = Some (JObj sec) ->
   field "mirrorDaemonCount" sec = Some (JInt n) ->
   GetRBDMirrorDaemonCount fs path clusterID = Ok n) /\
  (forall sec v, field "rbd" r = Some (JObj sec) ->
   field "mirrorDaemonCount" sec = Some v -> (forall n, v <> JInt n) ->
   GetRBDMirrorDaemonCount fs path clusterID
   = Err (MalformedRecord clusterID "rbd.mirrorDaemonCount")).
Proof.
  intros Hr. unfold GetRBDMirrorDaemonCount. rewrite Hr. simpl.
  split; [|split; [|split]].
  - intros H. rewrite H. reflexivity.
  - intros sec H1 H2. rewrite H1, H2. reflexivity.
  - intros sec n H1 H2. rewrite H1, H2. reflexivity.
  - intros sec v H1 H2 Hv. rewrite H1, H2.
    destruct v; try reflexivity. exfalso. exact (Hv z eq_refl).
Qed.

Lemma mirror_daemon_count_witness :
  GetRBDMirrorDaemonCount (with_config (mirror_config "'2'")) test_path "cluster-1"
  = Err (MalformedRecord "cluster-1" "rbd.mirrorDaemonCount").
Proof.
  apply (proj2 (proj2 (proj2 (mirror_daemon_count (with_config (mirror_config "'2'"))
    test_path "cluster-1"
    [("clusterID", JStr "cluster-1"); ("monitors", JArr [JStr "ip-1"; JStr "ip-2"]);
     ("rbd", JObj [("mirrorDaemonCount", JStr "2")])] eq_refl)))
    [("mirrorDaemonCount", JStr "2")] (JStr "2")).
  - reflexivity.
  - reflexivity.
  - discriminate.
Defined.

(** C8: [CrushLocationLabels] of a matched record is [(false, "")] when the
    [readAffinity] section is absent, or when [enabled] is false (or unset)
    whatever list of labels is configured; when [enabled] is true it is
    [true] with the labels joined by commas, in order. *)
Theorem crush_location_labels (fs : filesystem) (path clusterID : string) (r : record) :
  resolve_cluster fs path clusterID = Ok r ->
  (field "readAffinity" r = None ->
   GetCrushLocationLabels fs path clusterID = Ok (false, "")) /\
  (forall ra labels, field "readAffinity" r = Some (JObj ra) ->
   (field "enabled" ra = Some (JBool false) \/ field "enabled" ra = None) ->
   (field "crushLocationLabels" ra = Some (JArr (map JStr labels)) \/
    field "crushLocationLabels" ra = None) ->
   GetCrushLocationLabels fs path clusterID = Ok (false, "")) /\
  (forall ra labels, field "readAffinity" r = Some (JObj ra) ->
   field "enabled" ra = Some (JBool true) ->
   field "crushLocationLabels" ra = Some (JArr (map JStr labels)) ->
   GetCrushLocationLabels fs path clusterID = Ok (true, join labels)).
Proof.
  intros Hr. unfold GetCrushLocationLabels. rewrite Hr. simpl.
  split; [|split].
  - intros H. rewrite H. reflexivity.
  - intros ra labels H1 [He|He] [Hl|Hl]; rewrite H1, He; simpl; rewrite Hl;
      try rewrite strings_of_map_JStr; reflexivity.
  - intros ra labels H1 He Hl. rewrite H1, He. simpl. rewrite Hl, strings_of_map_JStr.
    reflexivity.
Qed.

Lemma crush_location_labels_witness :
  GetCrushLocationLabels (with_config read_affinity_config) test_path "cluster-3"
  = Ok (false, "").
Proof.
  apply (proj1 (proj2 (crush_location_labels (with_config read_affinity_config)
    test_path "cluster-3"
    [("clusterID", JStr "cluster-3");
     ("readAffinity", JObj [("enabled", JBool false);
                            ("crushLocationLabels", JArr [JStr "topology.io/rack"])])]
    eq_refl))
    [("enabled", JBool false); ("crushLocationLabels", JArr [JStr "topology.io/rack"])]
    ["topology.io/rack"]).
  - reflexivity.
  - left. reflexivity.
  - left. reflexivity.
Defined.

(** C9: for every backend kind, [NetNamespaceFilePath] of a matched record
    is the configured path, or the empty string when the backend section or
    its field is unset; and its only errors are [ConfigUnreadable] and
    [ClusterNotFound]. *)
Theorem net_namespace_file_path (fs : filesystem) (path clusterID : string)
    (k : backend_kind) :
  (forall r, resolve_cluster fs path clusterID = Ok r ->
   (field (section_name k) r = None ->
    GetNetNamespaceFilePath fs path clusterID k = Ok "") /\
   (forall sec, field (section_name k) r = Some (JObj sec) ->
    field "netNamespaceFilePath" sec = None ->
    GetNetNamespaceFilePath fs path clusterID k = Ok "") /\
   (forall sec p, field (section_name k) r = Some (JObj sec) ->
    field "netNamespaceFilePath" sec = Some (JStr p) ->
    GetNetNamespaceFilePath fs path clusterID k = Ok p)) /\
  (forall e, GetNetNamespaceFilePath fs path clusterID k = Err e ->
   e = ConfigUnreadable path \/ e = ClusterNotFound clusterID).
Proof.
  unfold GetNetNamespaceFilePath. split.
  - intros r Hr. rewrite Hr. simpl. split; [|split].
    + intros H. rewrite H. reflexivity.
    + intros sec H1 H2. rewrite H1, H2. reflexivity.
    + intros sec p H1 H2. rewrite H1, H2. reflexivity.
  - intros e. destruct (resolve_cluster fs path clusterID) as [r|e'] eqn:Hr; simpl.
    + destruct (field (section_name k) r) as [[]|]; try (intros [= <-]; left; reflexivity);
        try discriminate.
      destruct (field "netNamespaceFilePath" fields) as [[]|];
        try (intros [= <-]; left; reflexivity); discriminate.
    + intros [= <-]. exact (resolve_cluster_err _ _ _ _ Hr).
Qed.

Lemma net_namespace_file_path_witness :
  GetNetNamespaceFilePath (with_config netns_config) test_path "cluster-3" NFS = Ok "".
Proof.
  apply (proj1 (proj1 (net_namespace_file_path (with_config netns_config) test_path
    "cluster-3" NFS)
    [("clusterID", JStr "cluster-3"); ("monitors", JArr [JStr "ip-5"; JStr "ip-6"])]
    eq_refl)).
  reflexivity.
Defined.

End ConfigFacts.

(* ------------------------------------------------------------------ *)
(** ** Facts about the executor *)

Module ExecutorFacts.
Import Executor.

Definition nl : string := String "010"%char EmptyString.

(** The programs of [TestExecCommandWithTimeout] and of the claims, one time
    unit being a second. *)
Definition test_programs : programs := fun program args =>
  if String.eqb program "echo" then
    Some {| duration := 0; exit_status := 0;
            out_chunks := [(0, String.concat " " args ++ nl)]; err_chunks := [] |}
  else if String.eqb program "sleep" then
    match args with
    | [n] =>
        let '(secs, digits, rest) := Config.take_digits 0 [] (list_ascii_of_string n) in
        match digits, rest with
        | _ :: _, [] => Some {| duration := Z.to_nat secs; exit_status := 0;
                                out_chunks := []; err_chunks := [] |}
        | _, _ => None
        end
    | _ => None
    end
  else if String.eqb program "false" then
    Some {| duration := 0; exit_status := 1; out_chunks := []; err_chunks := [] |}
  else if String.eqb program "sh" then
    match args with
    | ["-c"; script] =>
        if String.eqb script "echo hello; sleep 3" then
          Some {| duration := 3; exit_status := 0;
                  out_chunks := [(0, "hello" ++ nl)]; err_chunks := [] |}
        else None
    | _ => None
    end
  else None.

Definition host0 : host := {| clock := 0; next_pid := 100; running := [] |}.

(** [context.TODO()]: no deadline of its own. *)
Definition ctx_todo : context := {| ctx_deadline := None; ctx_cancel := None |}.

(** *** [TestExecCommandWithTimeout] *)

Example exec_echo_hello :
  fst (ExecCommandWithTimeout test_programs host0 ctx_todo 1 "echo" ["hello"])
  = ("hello" ++ nl, "", None).
Proof. reflexivity. Qed.

Example exec_sleep_timeout :
  ExecCommandWithTimeout test_programs host0 ctx_todo 1 "sleep" ["3"]
  = (("", "", Some (Timeout DeadlineExceeded)),
     {| clock := 1; next_pid := 101; running := [] |}).
Proof. reflexivity. Qed.

(** The caller's own deadline, when earlier, wins. *)
Example exec_ctx_deadline_earlier :
  snd (ExecCommandWithTimeout test_programs host0 {| ctx_deadline := Some 2; ctx_cancel := None |}
         10 "sleep" ["3"])
  = {| clock := 2; next_pid := 101; running := [] |}.
Proof. reflexivity. Qed.

(** The owning operation cancels its context at time 1: the child is
    killed then, and the error wraps [Canceled], not [DeadlineExceeded]. *)
Example exec_canceled :
  ExecCommandWithTimeout test_programs host0
    {| ctx_deadline := None; ctx_cancel := Some 1 |} 10 "sleep" ["3"]
  = (("", "", Some (Timeout Canceled)),
     {| clock := 1; next_pid := 101; running := [] |}).
Proof. reflexivity. Qed.

Example exec_not_found :
  fst (ExecCommandWithTimeout test_programs host0 ctx_todo 1 "no-such-program" [])
  = ("", "", Some (SpawnFailed "no-such-program")).
Proof. reflexivity. Qed.

(** *** General lemmas *)

Lemma remove_In_sub (pid p : nat) (l : list nat) :
  In p (remove Nat.eq_dec pid (pid :: l)) -> In p l /\ p <> pid.
Proof.
  intros H. apply in_remove in H as [H Hne]. destruct H as [<- | H].
  - contradiction.
  - auto.
Qed.

(** The time until the call's deadline, the earlier of the caller's and
    [now + timeout]. *)
Definition budget (h : host) (ctx : context) (timeout : nat) : nat :=
  effective_deadline ctx (clock h) timeout - clock h.

(** The time a call lets its child run: until the deadline, or until the
    caller cancels the context if that comes first. *)
Definition run_budget (h : host) (ctx : context) (timeout : nat) : nat :=
  context_end ctx (clock h) timeout - clock h.

(** The caller does not cancel the context before the deadline. *)
Definition deadline_first (h : host) (ctx : context) (timeout : nat) : Prop :=
  forall c, ctx_cancel ctx = Some c -> effective_deadline ctx (clock h) timeout <= c.

Lemma deadline_first_run_budget (h : host) (ctx : context) (timeout : nat) :
  deadline_first h ctx timeout ->
  run_budget h ctx timeout = budget h ctx timeout /\
  context_cause ctx (clock h) timeout = DeadlineExceeded.
Proof.
  unfold deadline_first, run_budget, budget, context_end, context_cause.
  destruct (ctx_cancel ctx) as [c|]; intros H; [|auto].
  specialize (H c eq_refl).
  destruct (Nat.ltb_spec c (effective_deadline ctx (clock h) timeout)); [lia | auto].
Qed.

Lemma deadline_first_todo (h : host) (timeout : nat) :
  deadline_first h {| ctx_deadline := None; ctx_cancel := None |} timeout.
Proof. intros c [=]. Qed.

(** *** C1 *)

(** C1, as stated, fails: [false] exits within the deadline, with status 1,
    and the call returns [CommandFailed], not a nil error. *)
Lemma ExecCommandWithTimeout_nonzero_exit_not_nil :
  ~ (forall progs h ctx timeout program args b res h',
       progs program args = Some b ->
       duration b < budget h ctx timeout ->
       ExecCommandWithTimeout progs h ctx timeout program args = (res, h') ->
       snd res = None).
Proof.
  intros H.
  assert (Hfalse := H test_programs host0 ctx_todo 1 "false" []
            {| duration := 0; exit_status := 1; out_chunks := []; err_chunks := [] |}
            ("", "", Some (CommandFailed 1 "")) {| clock := 0; next_pid := 101; running := [] |}
            eq_refl ltac:(cbv; lia) eq_refl).
  discriminate Hfalse.
Qed.

(** C1 (amended): a program that exits with status zero before the call's
    context ends gives its exact captured stdout (and stderr) and a nil
    error; a program still running at the deadline, the earlier of the
    caller's and [now + timeout], gives a [Timeout] that wraps
    [DeadlineExceeded], which a [CommandFailed] never does; and whatever the
    outcome (exit, deadline or cancellation) no process survives the call
    that was not running before it, the child included. *)
Theorem ExecCommandWithTimeout_outcomes (progs : programs) (h : host) (ctx : context)
    (timeout : nat) (program : string) (args : list string) (b : behaviour)
    (res : string * string * option exec_error) (h' : host) :
  progs program args = Some b ->
  ExecCommandWithTimeout progs h ctx timeout program args = (res, h') ->
  (forall p, In p (running h') -> In p (running h) /\ p <> next_pid h) /\
  (duration b < run_budget h ctx timeout -> exit_status b = 0%Z ->
   res = (captured_all (out_chunks b), captured_all (err_chunks b), None)) /\
  (deadline_first h ctx timeout -> budget h ctx timeout <= duration b ->
   snd res = Some (Timeout DeadlineExceeded)) /\
  errors_is (Timeout DeadlineExceeded) DeadlineExceeded = true /\
  (forall status err, errors_is (CommandFailed status err) DeadlineExceeded = false).
Proof.
  intros Hb. unfold ExecCommandWithTimeout. rewrite Hb. fold (run_budget h ctx timeout).
  destruct (Nat.ltb (duration b) (run_budget h ctx timeout)) eqn:Hlt.
  - apply Nat.ltb_lt in Hlt.
    destruct (Z.eqb (exit_status b) 0) eqn:Hz; intros [= <- <-]; simpl.
    + split; [intros p Hp; exact (remove_In_sub _ _ _ Hp)|].
      split; [reflexivity|].
      split; [|split; [reflexivity | reflexivity]].
      intros Hfirst Hle. destruct (deadline_first_run_budget h ctx timeout Hfirst). lia.
    + apply Z.eqb_neq in Hz.
      split; [intros p Hp; exact (remove_In_sub _ _ _ Hp)|].
      split; [intros _ H0; contradiction|].
      split; [|split; [reflexivity | reflexivity]].
      intros Hfirst Hle. destruct (deadline_first_run_budget h ctx timeout Hfirst). lia.
  - apply Nat.ltb_ge in Hlt. intros [= <- <-]; simpl.
    split; [intros p Hp; exact (remove_In_sub _ _ _ Hp)|].
    split; [intros H0; lia|].
    split; [|split; [reflexivity | reflexivity]].
    intros Hfirst _. destruct (deadline_first_run_budget h ctx timeout Hfirst) as [_ ->].
    reflexivity.
Qed.

Lemma ExecCommandWithTimeout_outcomes_witness :
  test_programs "sleep" ["3"]
  = Some {| duration := 3; exit_status := 0; out_chunks := []; err_chunks := [] |} /\
  snd (fst (ExecCommandWithTimeout test_programs host0 ctx_todo 1 "sleep" ["3"]))
  = Some (Timeout DeadlineExceeded).
Proof.
  split; [reflexivity|].
  destruct (ExecCommandWithTimeout_outcomes test_programs host0 ctx_todo 1 "sleep" ["3"]
       {| duration := 3; exit_status := 0; out_chunks := []; err_chunks := [] |}
       ("", "", Some (Timeout DeadlineExceeded))
       {| clock := 1; next_pid := 101; running := [] |} eq_refl eq_refl)
    as (_ & _ & Htimeout & _).
  exact (Htimeout (deadline_first_todo host0 1) ltac:(cbv; lia)).
Defined.

(** *** C10 *)

Lemma captured_before_late (t : nat) (chunks : list (nat * string)) :
  Forall (fun c => t <= fst c) chunks -> captured_before t chunks = "".
Proof.
  unfold captured_before. induction 1 as [|c cs Hc _ IH]; [reflexivity|].
  simpl. apply Nat.ltb_ge in Hc. rewrite Hc. exact IH.
Qed.

Definition echo_then_sleep : behaviour :=
  {| duration := 3; exit_status := 0; out_chunks := [(0, "hello" ++ nl)]; err_chunks := [] |}.

(** C10, as stated, fails: a program that writes [hello] at once and then
    outlives its deadline of 1 times out with [hello] as its stdout, not the
    empty string. *)
Lemma ExecCommandWithTimeout_timeout_partial_stdout :
  ~ (forall progs h ctx timeout program args b res h',
       progs program args = Some b ->
       budget h ctx timeout <= duration b ->
       ExecCommandWithTimeout progs h ctx timeout program args = (res, h') ->
       (exists e, snd res = Some e /\ errors_is e DeadlineExceeded = true) /\
       fst (fst res) = "").
Proof.
  intros H.
  destruct (H test_programs host0 ctx_todo 1 "sh" ["-c"; "echo hello; sleep 3"]
              echo_then_sleep
              ("hello" ++ nl, "", Some (Timeout DeadlineExceeded))
              {| clock := 1; next_pid := 101; running := [] |}
              eq_refl ltac:(cbv; lia) eq_refl) as [_ Hout].
  discriminate Hout.
Qed.

(** C10 (amended): the error of a call that outlives its deadline (the
    caller not having canceled the context before it) satisfies
    [errors.Is(err, context.DeadlineExceeded)], and the stdout returned with
    it is what the program wrote before the deadline: the empty string for a
    program, such as [sleep], that wrote nothing by then. *)
Theorem ExecCommandWithTimeout_timeout_error (progs : programs) (h : host)
    (ctx : context) (timeout : nat) (program : string) (args : list string)
    (b : behaviour) (res : string * string * option exec_error) (h' : host) :
  progs program args = Some b ->
  deadline_first h ctx timeout ->
  budget h ctx timeout <= duration b ->
  ExecCommandWithTimeout progs h ctx timeout program args = (res, h') ->
  (exists e, snd res = Some e /\ errors_is e DeadlineExceeded = true) /\
  fst (fst res) = captured_before (budget h ctx timeout) (out_chunks b) /\
  (Forall (fun c => budget h ctx timeout <= fst c) (out_chunks b) -> fst (fst res) = "").
Proof.
  intros Hb Hfirst Hle. destruct (deadline_first_run_budget h ctx timeout Hfirst) as [Hrun Hcause].
  unfold ExecCommandWithTimeout. rewrite Hb. fold (run_budget h ctx timeout).
  rewrite Hrun, Hcause.
  apply Nat.ltb_ge in Hle. rewrite Hle. intros [= <- _]. simpl.
  split; [eexists; split; reflexivity | split; [reflexivity|]].
  apply captured_before_late.
Qed.

Lemma ExecCommandWithTimeout_timeout_error_witness :
  test_programs "sleep" ["3"]
  = Some {| duration := 3; exit_status := 0; out_chunks := []; err_chunks := [] |} /\
  fst (fst (fst (ExecCommandWithTimeout test_programs host0 ctx_todo 1 "sleep" ["3"]))) = "" .
Proof.
  split; [reflexivity|].
  destruct (ExecCommandWithTimeout_timeout_error test_programs host0 ctx_todo 1 "sleep" ["3"]
       {| duration := 3; exit_status := 0; out_chunks := []; err_chunks := [] |}
       ("", "", Some (Timeout DeadlineExceeded))
       {| clock := 1; next_pid := 101; running := [] |} eq_refl
       (deadline_first_todo host0 1) ltac:(cbv; lia) eq_refl)
    as (_ & _ & Hempty).
  exact (Hempty (Forall_nil _)).
Defined.

End ExecutorFacts.

(* ------------------------------------------------------------------ *)
(** ** Facts about the journal *)

Module JournalFacts.
Import Journal.

Definition name_is (n : string) (e : JournalEntry) : bool := String.eqb (requestName e) n.

Definition locked_pc (p : pc) : bool :=
  match p with
  | Locked | Decided _ | Holding _ => true
  | Start | Done _ => false
  end.

(** *** Lemmas on the journal's lists *)

Lemma find_entry_some (n : string) (es : list JournalEntry) (e : JournalEntry) :
  find_entry n es = Some e -> In e es /\ requestName e = n.
Proof.
  induction es as [|e' es IH]; simpl; [discriminate|].
  destruct (String.eqb (requestName e') n) eqn:E.
  - intros [= <-]. apply String.eqb_eq in E. auto.
  - intros H. destruct (IH H). auto.
Qed.

Lemma find_entry_none (n : string) (es : list JournalEntry) (e : JournalEntry) :
  find_entry n es = None -> In e es -> requestName e <> n.
Proof.
  induction es as [|e' es IH]; simpl; [contradiction|].
  destruct (String.eqb (requestName e') n) eqn:E; [discriminate|].
  intros H [<- | Hin].
  - apply String.eqb_neq in E. exact E.
  - exact (IH H Hin).
Qed.

Lemma find_entry_app_none (n : string) (es : list JournalEntry) (e : JournalEntry) :
  find_entry n es = None -> requestName e = n -> find_entry n (es ++ [e]) = Some e.
Proof.
  induction es as [|e' es IH]; simpl; intros H He.
  - rewrite He, String.eqb_refl. reflexivity.
  - destruct (String.eqb (requestName e') n); [discriminate|]. exact (IH H He).
Qed.

Lemma count_entries_app (p : JournalEntry -> bool) (es es' : list JournalEntry) :
  count_entries p (es ++ es') = count_entries p es + count_entries p es'.
Proof. unfold count_entries. rewrite filter_app, length_app. reflexivity. Qed.

Lemma count_none (n : string) (es : list JournalEntry) :
  find_entry n es = None -> count_entries (name_is n) es = 0.
Proof.
  unfold count_entries, name_is.
  induction es as [|e es IH]; simpl; [reflexivity|].
  destruct (String.eqb (requestName e) n); [discriminate|]. exact IH.
Qed.

Lemma count_some (n : string) (es : list JournalEntry) (e : JournalEntry) :
  find_entry n es = Some e -> 1 <= count_entries (name_is n) es.
Proof.
  unfold count_entries, name_is.
  induction es as [|e' es IH]; simpl; [discriminate|].
  destruct (String.eqb (requestName e') n); simpl; [lia|]. exact IH.
Qed.

Lemma count_provisional (n : string) (es : list JournalEntry) :
  (forall e, In e es -> requestName e = n -> state e = Provisional) ->
  count_entries (fun e => name_is n e && is_provisional (state e)) es
  = count_entries (name_is n) es.
Proof.
  unfold count_entries, name_is.
  induction es as [|e es IH]; simpl; intros Hp; [reflexivity|].
  destruct (String.eqb (requestName e) n) eqn:E; simpl.
  - apply String.eqb_eq in E. rewrite (Hp e (or_introl eq_refl) E). simpl.
    f_equal. apply IH. auto.
  - apply IH. auto.
Qed.

Lemma lock_holder_acquire (n : string) (t : tid) (ls : list (string * tid)) :
  lock_holder n ((n, t) :: ls) = Some t.
Proof. simpl. rewrite String.eqb_refl. reflexivity. Qed.

(** *** The invariant of two callers allocating one name *)

Section SameName.

Variable n : string.
Variable req : requests.
Hypothesis Hreq : forall t, exists k p, req t = (n, k, p).

Record Inv (w : world) : Prop := {
  inv_lock : forall t, locked_pc (pcs w t) = true ->
             lock_holder n (locks (jstore w)) = Some t;
  inv_none : forall t, pcs w t = Decided None ->
             find_entry n (entries (jstore w)) = None;
  inv_some : forall t e, pcs w t = Decided (Some e) ->
             find_entry n (entries (jstore w)) = Some e;
  inv_held : forall t e, (pcs w t = Holding e \/ pcs w t = Done e) ->
             find_entry n (entries (jstore w)) = Some e;
  inv_count : count_entries (name_is n) (entries (jstore w)) <= 1;
  inv_prov : forall e, In e (entries (jstore w)) -> requestName e = n ->
             state e = Provisional
}.

(** Mutual exclusion: two callers inside the section are the same caller. *)
Lemma Inv_exclusive (w : world) (t t' : tid) :
  Inv w -> locked_pc (pcs w t) = true -> locked_pc (pcs w t') = true -> t' = t.
Proof.
  intros I Ht Ht'. pose proof (inv_lock w I t Ht) as H1.
  pose proof (inv_lock w I t' Ht') as H2. congruence.
Qed.

Ltac other_thread E :=
  apply Bool.eqb_false_iff in E.

Lemma Inv_step (w : world) (t : tid) : Inv w -> Inv (step req t w).
Proof.
  intros I. destruct (Hreq t) as (k & p & Ht).
  pose proof I as [Hl Hn Hs Hh Hc Hp].
  unfold step. rewrite Ht.
  destruct (pcs w t) as [| | [e|] | e | e] eqn:Hpc.
  - (* Start: enter the section when it is free *)
    destruct (lock_holder n (locks (jstore w))) eqn:Hlh; [exact I|].
    constructor; simpl; try assumption; intros t'; destruct (Bool.eqb t' t) eqn:E.
    + intros _. apply Bool.eqb_prop in E. subst. rewrite String.eqb_refl. reflexivity.
    + intros H. discriminate (Hl t' H).
    + intros; discriminate.
    + apply Hn.
    + intros; discriminate.
    + apply Hs.
    + intros e [H|H]; discriminate.
    + apply Hh.
  - (* Locked: look the name up *)
    constructor; simpl; try assumption; intros t'; destruct (Bool.eqb t' t) eqn:E.
    + intros _. apply Bool.eqb_prop in E. subst. apply Hl. rewrite Hpc. reflexivity.
    + apply Hl.
    + intros [= H]. exact H.
    + apply Hn.
    + intros e [= H]. exact H.
    + apply Hs.
    + intros e [H|H]; discriminate.
    + apply Hh.
  - (* Decided, found: keep what was found *)
    constructor; simpl; try assumption; intros t'; destruct (Bool.eqb t' t) eqn:E.
    + intros _. apply Bool.eqb_prop in E. subst. apply Hl. rewrite Hpc. reflexivity.
    + apply Hl.
    + intros; discriminate.
    + apply Hn.
    + intros; discriminate.
    + apply Hs.
    + intros e' [H|H]; [injection H as <-; exact (Hs t e Hpc) | discriminate].
    + apply Hh.
  - (* Decided, nothing found: write a Provisional entry *)
    pose proof (Hn t Hpc) as Hfind.
    assert (Hlt : locked_pc (pcs w t) = true) by (rewrite Hpc; reflexivity).
    constructor; simpl.
    + intros t'. destruct (Bool.eqb t' t) eqn:E.
      * intros _. apply Bool.eqb_prop in E. subst. exact (Hl t Hlt).
      * apply Hl.
    + intros t'. destruct (Bool.eqb t' t) eqn:E; [intros; discriminate|].
      intros H. other_thread E. exfalso. apply E.
      apply (Inv_exclusive w); [exact I | exact Hlt | rewrite H; reflexivity].
    + intros t' e. destruct (Bool.eqb t' t) eqn:E; [intros; discriminate|].
      intros H. other_thread E. exfalso. apply E.
      apply (Inv_exclusive w); [exact I | exact Hlt | rewrite H; reflexivity].
    + intros t' e. destruct (Bool.eqb t' t) eqn:E.
      * intros [H|H]; [|discriminate]. injection H as <-.
        apply find_entry_app_none; [exact Hfind | reflexivity].
      * other_thread E. intros [H|H].
        -- exfalso. apply E.
           apply (Inv_exclusive w); [exact I | exact Hlt | rewrite H; reflexivity].
        -- rewrite (Hh t' e (or_intror H)) in Hfind. discriminate.
    + rewrite count_entries_app, (count_none _ _ Hfind).
      unfold count_entries, name_is. simpl. rewrite String.eqb_refl. simpl. lia.
    + intros e He Hname. apply in_app_or in He as [He | [<- | []]].
      * exact (Hp e He Hname).
      * reflexivity.
  - (* Holding: leave the section *)
    constructor; simpl; try assumption; intros t'; destruct (Bool.eqb t' t) eqn:E.
    + intros; discriminate.
    + intros H. other_thread E. exfalso. apply E.
      apply (Inv_exclusive w); [exact I | rewrite Hpc; reflexivity | exact H].
    + intros; discriminate.
    + apply Hn.
    + intros; discriminate.
    + apply Hs.
    + intros e' [H|H]; [intros; discriminate|]. injection H as <-. exact (Hh t e (or_introl Hpc)).
    + apply Hh.
  - (* Done *)
    exact I.
Qed.

Lemma Inv_run (sched : list tid) (w : world) : Inv w -> Inv (run req sched w).
Proof.
  revert w. induction sched as [|t sched IH]; simpl; intros w I; [exact I|].
  apply IH, Inv_step, I.
Qed.

Lemma Inv_init (st0 : store) :
  find_entry n (entries st0) = None ->
  Inv {| jstore := st0; pcs := fun _ => Start |}.
Proof.
  intros Hnone. constructor; simpl; try discriminate.
  - intros t e [H|H]; discriminate.
  - rewrite (count_none _ _ Hnone). lia.
  - intros e He Hname. exfalso. exact (find_entry_none _ _ _ Hnone He Hname).
Qed.

End SameName.

(** A caller running alone, from a free section, ends with what the body
    [AllocateIdentity] computes. *)
Lemma solo_run_AllocateIdentity (req : requests) (t : tid) (st : store)
    (n : string) (k : kind) (p : option nat) :
  req t = (n, k, p) -> lock_holder n (locks st) = None ->
  pcs (run req [t; t; t; t] {| jstore := st; pcs := fun _ => Start |}) t
  = Done (fst (AllocateIdentity st n k p)) /\
  entries (jstore (run req [t; t; t; t] {| jstore := st; pcs := fun _ => Start |}))
  = entries (snd (AllocateIdentity st n k p)).
Proof.
  intros Ht Hfree. unfold AllocateIdentity. cbn [run]. unfold step. rewrite !Ht.
  cbn [pcs jstore]. rewrite Hfree. cbn [pcs jstore set_pc]. rewrite !Bool.eqb_reflx.
  cbn. rewrite ?Bool.eqb_reflx.
  destruct (find_entry n (entries st)) as [e|]; cbn; rewrite ?Bool.eqb_reflx; cbn;
    rewrite ?Bool.eqb_reflx; auto.
Qed.

(** C2: two callers allocating the same name and kind, under any schedule
    of their steps, both end with the same entry (so the same [objectUUID]),
    and the journal then holds exactly one entry for the name, a Provisional
    one; an entry already Ready or Deleting is returned unchanged with the
    store untouched; with no entry, [AllocateIdentity] mints a token no
    entry holds and appends a Provisional entry for it. *)
Theorem AllocateIdentity_one_provisional :
  (forall (n : string) (k : kind) (req : requests) (st0 : store) (sched : list tid)
          (w : world) (eA eB : JournalEntry),
     (forall t, exists p, req t = (n, k, p)) ->
     find_entry n (entries st0) = None ->
     run req sched {| jstore := st0; pcs := fun _ => Start |} = w ->
     pcs w true = Done eA -> pcs w false = Done eB ->
     eA = eB /\ objectUUID eA = objectUUID eB /\
     count_entries (name_is n) (entries (jstore w)) = 1 /\
     count_entries (fun e => name_is n e && is_provisional (state e)) (entries (jstore w))
     = 1) /\
  (forall st n k parent e,
     find_entry n (entries st) = Some e -> (state e = Ready \/ state e = Deleting) ->
     AllocateIdentity st n k parent = (e, st)) /\
  (forall st n k parent e st',
     find_entry n (entries st) = None ->
     (forall e', In e' (entries st) -> objectUUID e' < next_uuid st) ->
     AllocateIdentity st n k parent = (e, st') ->
     (forall e', In e' (entries st) -> objectUUID e' <> objectUUID e) /\
     requestName e = n /\ ekind e = k /\ state e = Provisional /\
     entries st' = (entries st ++ [e])%list).
Proof.
  split; [|split].
  - intros n k req st0 sched w eA eB Hreq Hnone Hrun HA HB.
    assert (Hreq' : forall t, exists k' p, req t = (n, k', p)).
    { intros t. destruct (Hreq t) as [p Hp]. eauto. }
    pose proof (Inv_run n req Hreq' sched _ (Inv_init n st0 Hnone)) as I.
    rewrite Hrun in I.
    pose proof (inv_held n w I true eA (or_intror HA)) as FA.
    pose proof (inv_held n w I false eB (or_intror HB)) as FB.
    assert (eA = eB) as <- by congruence.
    pose proof (inv_count n w I) as Hc. pose proof (count_some _ _ _ FA) as Hc'.
    split; [reflexivity | split; [reflexivity|]].
    rewrite (count_provisional n _ (inv_prov n w I)). lia.
  - intros st n k parent e Hfind _. unfold AllocateIdentity. rewrite Hfind. reflexivity.
  - intros st n k parent e st' Hnone Hfresh. unfold AllocateIdentity. rewrite Hnone.
    simpl. intros [= <- <-]. simpl.
    split; [|repeat split].
    intros e' He'. specialize (Hfresh e' He'). lia.
Qed.

Definition req_same : requests := fun _ => ("pvc-1", Volume, None).
Definition store0 : store := {| entries := []; next_uuid := 0; locks := [] |}.

(** Both callers interleaved, the second waiting for the section. *)
Definition sched_interleaved : list tid :=
  [true; false; true; false; true; false; true; false; false; false; false].

Definition entry0 : JournalEntry :=
  {| requestName := "pvc-1"; backendID := None; objectUUID := 0; ekind := Volume;
     parentUUID := None; state := Provisional |}.

Lemma AllocateIdentity_one_provisional_witness :
  pcs (run req_same sched_interleaved {| jstore := store0; pcs := fun _ => Start |}) true
  = Done entry0 /\
  pcs (run req_same sched_interleaved {| jstore := store0; pcs := fun _ => Start |}) false
  = Done entry0 /\
  count_entries (name_is "pvc-1")
    (entries (jstore (run req_same sched_interleaved
                        {| jstore := store0; pcs := fun _ => Start |}))) = 1.
Proof.
  split; [reflexivity | split; [reflexivity|]].
  destruct (proj1 AllocateIdentity_one_provisional "pvc-1" Volume req_same store0
              sched_interleaved _ entry0 entry0
              (fun t => ex_intro _ None eq_refl) eq_refl eq_refl eq_refl eq_refl)
    as (_ & _ & Hc & _).
  exact Hc.
Defined.

End JournalFacts.

(* ------------------------------------------------------------------ *)
(** ** Reading back what [json.Marshal] writes *)

Module MarshalFacts.
Import Config Marshal.

(** What may follow a value inside a document. *)
Definition stop (rest : list ascii) : Prop :=
  rest = [] \/ exists c r, rest = c :: r /\ In c [","%char; "]"%char; "}"%char].

(** *** Strings *)

Lemma take_string_escape_ascii (c : ascii) (acc tail : list ascii) :
  (nat_of_ascii c <? 128)%nat = true ->
  take_string acc (escape_ascii c ++ tail)%list = take_string (acc ++ [c])%list tail.
Proof.
  destruct c as [[] [] [] [] [] [] [] []]; intros H;
    try discriminate H; reflexivity.
Qed.

Ltac bool_facts :=
  repeat (rewrite ?Bool.andb_true_iff, ?Bool.orb_true_iff, ?Nat.leb_le,
            ?Nat.ltb_lt, ?Nat.ltb_ge, ?Nat.eqb_eq in * ).

(** One step of [take_string] on a byte that is not ASCII. *)
Lemma take_string_high_eq (c : ascii) (acc tail : list ascii) :
  (nat_of_ascii c <? 128)%nat = false ->
  take_string acc (c :: tail)
  = match tail with
    | c2 :: cs2 =>
        if valid2 c c2 then take_string (acc ++ [c; c2])%list cs2
        else
          match cs2 with
          | c3 :: cs3 =>
              if valid3 c c2 c3 then take_string (acc ++ [c; c2; c3])%list cs3
              else
                match cs3 with
                | c4 :: cs4 =>
                    if valid4 c c2 c3 c4 then take_string (acc ++ [c; c2; c3; c4])%list cs4
                    else take_string (acc ++ utf8_encode replacement_char)%list tail
                | [] => take_string (acc ++ utf8_encode replacement_char)%list tail
                end
          | [] => take_string (acc ++ utf8_encode replacement_char)%list tail
          end
    | [] => take_string (acc ++ utf8_encode replacement_char)%list tail
    end.
Proof.
  destruct c as [[] [] [] [] [] [] [] []]; intros H;
    try discriminate H; reflexivity.
Qed.

Lemma valid2_high (c c2 : ascii) : valid2 c c2 = true -> (nat_of_ascii c <? 128)%nat = false.
Proof. unfold valid2, in_range, is_cont. intros H. apply Nat.ltb_ge. bool_facts. lia. Qed.

Lemma valid3_high (c c2 c3 : ascii) :
  valid3 c c2 c3 = true -> (nat_of_ascii c <? 128)%nat = false /\ valid2 c c2 = false.
Proof.
  intros H. split.
  - unfold valid3, in_range, is_cont in H. apply Nat.ltb_ge. bool_facts. lia.
  - destruct (valid2 c c2) eqn:E; [|reflexivity]. exfalso.
    unfold valid3, valid2, in_range, is_cont in *. bool_facts. lia.
Qed.

Lemma valid4_high (c c2 c3 c4 : ascii) :
  valid4 c c2 c3 c4 = true ->
  (nat_of_ascii c <? 128)%nat = false /\ valid2 c c2 = false /\ valid3 c c2 c3 = false.
Proof.
  intros H. split; [|split].
  - unfold valid4, in_range, is_cont in H. apply Nat.ltb_ge. bool_facts. lia.
  - destruct (valid2 c c2) eqn:E; [|reflexivity]. exfalso.
    unfold valid4, valid2, in_range, is_cont in *. bool_facts. lia.
  - destruct (valid3 c c2 c3) eqn:E; [|reflexivity]. exfalso.
    unfold valid4, valid3, in_range, is_cont in *. bool_facts. lia.
Qed.

Lemma take_string_valid2 (c c2 : ascii) (acc tail : list ascii) :
  valid2 c c2 = true ->
  take_string acc (c :: c2 :: tail) = take_string (acc ++ [c; c2])%list tail.
Proof.
  intros H. rewrite take_string_high_eq by exact (valid2_high _ _ H). rewrite H. reflexivity.
Qed.

Lemma take_string_valid3 (c c2 c3 : ascii) (acc tail : list ascii) :
  valid3 c c2 c3 = true ->
  take_string acc (c :: c2 :: c3 :: tail) = take_string (acc ++ [c; c2; c3])%list tail.
Proof.
  intros H. destruct (valid3_high _ _ _ H) as [Hc H2].
  rewrite take_string_high_eq by exact Hc. rewrite H2, H. reflexivity.
Qed.

Lemma take_string_valid4 (c c2 c3 c4 : ascii) (acc tail : list ascii) :
  valid4 c c2 c3 c4 = true ->
  take_string acc (c :: c2 :: c3 :: c4 :: tail)
  = take_string (acc ++ [c; c2; c3; c4])%list tail.
Proof.
  intros H. destruct (valid4_high _ _ _ _ H) as (Hc & H2 & H3).
  rewrite take_string_high_eq by exact Hc. rewrite H2, H3, H. reflexivity.
Qed.

Lemma take_string_line_sep (c c2 c3 : ascii) (acc tail : list ascii) :
  is_line_sep c c2 c3 = true ->
  take_string acc (line_sep_escape c3 ++ tail)%list = take_string (acc ++ [c; c2; c3])%list tail.
Proof.
  unfold is_line_sep. intros H. apply andb_prop in H as [H H3].
  apply andb_prop in H as [H1 H2]. apply Nat.eqb_eq in H1, H2.
  rewrite <- (ascii_nat_embedding c), <- (ascii_nat_embedding c2), H1, H2.
  apply orb_prop in H3 as [H3 | H3]; apply Nat.eqb_eq in H3;
    rewrite <- (ascii_nat_embedding c3), H3; reflexivity.
Qed.

Lemma take_string_escape_bytes (n : nat) :
  forall cs acc rest, length cs <= n -> valid_utf8 cs = true ->
  take_string acc (escape_bytes cs ++ "034"%char :: rest)%list
  = Some (string_of_list_ascii (acc ++ cs)%list, rest).
Proof.
  induction n as [|n IH]; intros cs acc rest Hlen Hv.
  - destruct cs; [|cbn in Hlen; lia]. cbn. rewrite app_nil_r. reflexivity.
  - destruct cs as [|c cs1]; [cbn; rewrite app_nil_r; reflexivity|].
    cbn [length] in Hlen. cbn [escape_bytes valid_utf8] in Hv |- *.
    destruct (nat_of_ascii c <? 128)%nat eqn:Hc.
    + rewrite <- app_assoc, take_string_escape_ascii by exact Hc.
      rewrite IH by (exact Hv || lia). rewrite <- app_assoc. reflexivity.
    + destruct cs1 as [|c2 cs2]; [discriminate Hv|].
      cbn [length] in Hlen. destruct (valid2 c c2) eqn:H2.
      * cbn [app]. rewrite take_string_valid2 by exact H2.
        rewrite IH by (exact Hv || lia). rewrite <- app_assoc. reflexivity.
      * destruct cs2 as [|c3 cs3]; [discriminate Hv|].
        cbn [length] in Hlen. destruct (valid3 c c2 c3) eqn:H3.
        -- destruct (is_line_sep c c2 c3) eqn:Hls.
           ++ rewrite <- app_assoc, (take_string_line_sep c c2 c3) by exact Hls.
              rewrite IH by (exact Hv || lia). rewrite <- app_assoc. reflexivity.
           ++ cbn [app]. rewrite take_string_valid3 by exact H3.
              rewrite IH by (exact Hv || lia). rewrite <- app_assoc. reflexivity.
        -- destruct cs3 as [|c4 cs4]; [discriminate Hv|].
           cbn [length] in Hlen. destruct (valid4 c c2 c3 c4) eqn:H4; [|discriminate Hv].
           cbn [app]. rewrite take_string_valid4 by exact H4.
           rewrite IH by (exact Hv || lia). rewrite <- app_assoc. reflexivity.
Qed.

Lemma quote_app (s : string) (rest : list ascii) :
  (quote s ++ rest)%list
  = ("034"%char :: escape_bytes (list_ascii_of_string s) ++ "034"%char :: rest)%list.
Proof. unfold quote. simpl. rewrite <- app_assoc. reflexivity. Qed.

Lemma take_string_quote (s : string) (rest : list ascii) :
  string_ok s = true ->
  take_string [] (escape_bytes (list_ascii_of_string s) ++ "034"%char :: rest)%list
  = Some (s, rest).
Proof.
  intros H. rewrite (take_string_escape_bytes (length (list_ascii_of_string s)))
    by (exact H || lia).
  simpl. rewrite string_of_list_ascii_of_string. reflexivity.
Qed.

(** *** Integers *)

Definition digit_step (a : Z) (c : ascii) : Z :=
  match digit_val c with Some d => (a * 10 + d)%Z | None => a end.

Lemma digit_val_digit_char (d : nat) :
  d < 10 -> digit_val (digit_char d) = Some (Z.of_nat d).
Proof.
  intros Hd. unfold digit_val, digit_char. cbv zeta.
  rewrite nat_ascii_embedding by lia.
  replace (48 <=? 48 + d)%nat with true by (symmetry; apply Nat.leb_le; lia).
  replace (48 + d <=? 57)%nat with true by (symmetry; apply Nat.leb_le; lia).
  cbn [andb]. f_equal. f_equal. lia.
Qed.

Definition is_digit_char (c : ascii) : Prop := exists d, d < 10 /\ c = digit_char d.

Lemma take_digits_app (ds : list ascii) (acc : Z) (raw rest : list ascii) :
  Forall is_digit_char ds ->
  take_digits acc raw (ds ++ rest)%list
  = take_digits (fold_left digit_step ds acc) (raw ++ ds)%list rest.
Proof.
  intros Hds. revert acc raw. induction Hds as [|c ds [d [Hd ->]] _ IH]; intros acc raw;
    cbn [app take_digits fold_left].
  - rewrite app_nil_r. reflexivity.
  - unfold digit_step at 2. rewrite digit_val_digit_char by exact Hd.
    rewrite IH, <- app_assoc. reflexivity.
Qed.

Lemma take_digits_stop (acc : Z) (raw rest : list ascii) :
  stop rest -> take_digits acc raw rest = (acc, raw, rest).
Proof.
  intros [-> | (c & r & -> & Hc)]; [reflexivity|].
  simpl in Hc. destruct Hc as [<- | [<- | [<- | []]]]; reflexivity.
Qed.

Lemma nat_digits_spec (fuel n : nat) :
  n < fuel ->
  fold_left digit_step (nat_digits fuel n) 0%Z = Z.of_nat n /\
  Forall is_digit_char (nat_digits fuel n) /\ nat_digits fuel n <> [].
Proof.
  revert n. induction fuel as [|f IH]; intros n Hn; [lia|]. cbn [nat_digits].
  destruct (Nat.ltb n 10) eqn:Hlt.
  - apply Nat.ltb_lt in Hlt. cbn [fold_left]. unfold digit_step.
    rewrite digit_val_digit_char by exact Hlt.
    split; [reflexivity | split; [repeat constructor; exists n; auto | discriminate]].
    all: fail.
  - apply Nat.ltb_ge in Hlt.
    assert (Hdiv : Nat.div n 10 < f).
    { assert (Nat.div n 10 < n) by (apply Nat.div_lt; lia). lia. }
    destruct (IH _ Hdiv) as (Hv & Hf & _).
    assert (Hmod : Nat.modulo n 10 < 10) by (apply Nat.mod_upper_bound; lia).
    rewrite fold_left_app, Hv. cbn [fold_left]. unfold digit_step.
    rewrite digit_val_digit_char by exact Hmod.
    split; [|split].
    + pose proof (Nat.div_mod_eq n 10). lia.
    + apply Forall_app. split; [exact Hf|]. repeat constructor. exists (Nat.modulo n 10). auto.
    + destruct (nat_digits f (Nat.div n 10)); discriminate.
Qed.


Definition digit_chars : list ascii :=
  ["0"%char; "1"%char; "2"%char; "3"%char; "4"%char;
   "5"%char; "6"%char; "7"%char; "8"%char; "9"%char].

Lemma is_digit_char_In (c : ascii) : is_digit_char c -> In c digit_chars.
Proof.
  intros (d & Hd & ->).
  do 10 (destruct d as [|d]; [cbn; repeat (solve [left; reflexivity] || right)|]).
  lia.
Qed.

Lemma digit_char_zero (d : nat) : d < 10 -> digit_char d = "0"%char -> d = 0.
Proof.
  unfold digit_char. intros Hd H.
  apply (f_equal nat_of_ascii) in H. rewrite nat_ascii_embedding in H by lia.
  cbn in H. lia.
Qed.

(** The decimal digits of a number have no leading zero. *)
Lemma nat_digits_no_leading_zero (fuel n : nat) (ds : list ascii) :
  n < fuel -> nat_digits fuel n = "0"%char :: ds -> n = 0 /\ ds = [].
Proof.
  revert n ds. induction fuel as [|f IH]; intros n ds Hn; [lia|]. cbn [nat_digits].
  destruct (Nat.ltb n 10) eqn:Hlt.
  - apply Nat.ltb_lt in Hlt. intros [= H0 <-]. split; [|reflexivity].
    exact (digit_char_zero n Hlt H0).
  - apply Nat.ltb_ge in Hlt.
    assert (Hdiv : Nat.div n 10 < f).
    { assert (Nat.div n 10 < n) by (apply Nat.div_lt; lia). lia. }
    assert (Hpos : 0 < Nat.div n 10).
    { apply Nat.div_str_pos. lia. }
    destruct (nat_digits_spec f (Nat.div n 10) Hdiv) as (_ & _ & Hne).
    destruct (nat_digits f (Nat.div n 10)) as [|d0 ds0] eqn:Hds; [congruence|].
    cbn [app]. intros [= -> _].
    destruct (IH (Nat.div n 10) ds0 Hdiv Hds). lia.
Qed.

Lemma int_chars_digits (z : Z) :
  exists d0 ds,
    nat_digits (S (Z.abs_nat z)) (Z.abs_nat z) = d0 :: ds /\
    In d0 digit_chars /\ Forall is_digit_char (d0 :: ds) /\
    fold_left digit_step (d0 :: ds) 0%Z = Z.abs z /\
    (d0 = "0"%char -> ds = []).
Proof.
  destruct (nat_digits_spec (S (Z.abs_nat z)) (Z.abs_nat z)) as (Hv & Hf & Hne); [lia|].
  destruct (nat_digits (S (Z.abs_nat z)) (Z.abs_nat z)) as [|d0 ds] eqn:Hds; [congruence|].
  exists d0, ds. split; [reflexivity|]. split; [|split; [exact Hf | split]].
  - inversion Hf; subst. apply is_digit_char_In. assumption.
  - rewrite Hv. lia.
  - intros ->. apply (nat_digits_no_leading_zero _ _ _ (Nat.lt_succ_diag_r _) Hds).
Qed.

Lemma take_digits_int (z : Z) (d0 : ascii) (ds rest : list ascii) :
  Forall is_digit_char (d0 :: ds) ->
  fold_left digit_step (d0 :: ds) 0%Z = Z.abs z ->
  stop rest ->
  take_digits 0 [] (d0 :: ds ++ rest)%list = (Z.abs z, d0 :: ds, rest).
Proof.
  intros Hf Hv Hs.
  rewrite app_comm_cons, take_digits_app by exact Hf.
  rewrite Hv. apply take_digits_stop. exact Hs.
Qed.

Ltac stop_cases Hs :=
  destruct Hs as [-> | (?c & ?r & -> & Hstop)];
  [| cbn in Hstop; destruct Hstop as [<- | [<- | [<- | []]]]].

Lemma take_number_int (z : Z) (rest : list ascii) :
  stop rest -> take_number (int_chars z ++ rest)%list = Some (JInt z, rest).
Proof.
  intros Hs.
  destruct (int_chars_digits z) as (d0 & ds & Hds & Hin & Hf & Hv & Hz0).
  pose proof (take_digits_int z d0 ds rest Hf Hv Hs) as Ht.
  unfold int_chars. rewrite Hds.
  destruct (Z.ltb z 0) eqn:Hneg; [apply Z.ltb_lt in Hneg | apply Z.ltb_ge in Hneg];
    cbn [app]; cbn in Hin;
    (destruct Hin as [<- | [<- | [<- | [<- | [<- | [<- | [<- | [<- | [<- | [<- | []]]]]]]]]]];
     [specialize (Hz0 eq_refl); subst ds; cbn [app] in Ht |- * | ..]);
    unfold take_number; cbn -[take_digits]; rewrite Ht;
    stop_cases Hs; cbn; do 3 f_equal; lia.
Qed.

Lemma parse_value_int (f : nat) (z : Z) (rest : list ascii) :
  stop rest -> parse_value (S f) (int_chars z ++ rest)%list = Some (JInt z, rest).
Proof.
  intros Hs. rewrite <- (take_number_int z rest Hs).
  destruct (int_chars_digits z) as (d0 & ds & Hds & Hin & _).
  unfold int_chars. rewrite Hds.
  destruct (Z.ltb z 0).
  - reflexivity.
  - cbn in Hin.
    destruct Hin as [<- | [<- | [<- | [<- | [<- | [<- | [<- | [<- | [<- | [<- | []]]]]]]]]]];
      reflexivity.
Qed.

(** *** Values *)

Definition head_chars : list ascii :=
  (["n"%char; "t"%char; "f"%char; "-"%char] ++ digit_chars
   ++ ["034"%char; "["%char; "{"%char])%list.

Lemma marshal_head (v : json) :
  marshalable v = true -> exists c t, marshal v = c :: t /\ In c head_chars.
Proof.
  intros Hm. destruct v as [| [] | z | raw | s | l | ms]; try discriminate Hm;
    try (eexists _, _; split; [reflexivity | cbn; tauto]).
  destruct (int_chars_digits z) as (d0 & ds & Hds & Hin & _).
  cbn [marshal]. unfold int_chars. rewrite Hds.
  destruct (Z.ltb z 0); cbn [app].
  - eexists _, _. split; [reflexivity | cbn; tauto].
  - exists d0, ds. split; [reflexivity|]. unfold head_chars.
    apply in_or_app. right. apply in_or_app. left. exact Hin.
Qed.

Lemma sep_by_comma_cons2 (x y : list ascii) (items : list (list ascii)) :
  sep_by_comma (x :: y :: items) = (x ++ ","%char :: sep_by_comma (y :: items))%list.
Proof. reflexivity. Qed.

Lemma sep_by_comma_head (x : list ascii) (items : list (list ascii)) (c : ascii) (t : list ascii) :
  x = c :: t -> exists t', sep_by_comma (x :: items) = c :: t'.
Proof.
  intros ->. destruct items as [|y items]; cbn [sep_by_comma].
  - eexists. reflexivity.
  - eexists. reflexivity.
Qed.

Lemma parse_value_string (f : nat) (r : list ascii) :
  parse_value (S f) ("034"%char :: r)
  = match take_string [] r with Some (s, r') => Some (JStr s, r') | None => None end.
Proof. reflexivity. Qed.

Lemma parse_value_array (f : nat) (c : ascii) (t : list ascii) :
  In c head_chars ->
  parse_value (S f) ("["%char :: c :: t)
  = match parse_elems f (c :: t) with Some (l, r') => Some (JArr l, r') | None => None end.
Proof.
  cbn. intros H.
  repeat (destruct H as [<- | H]; [reflexivity|]); destruct H.
Qed.

Lemma parse_value_object (f : nat) (t : list ascii) :
  parse_value (S f) ("{"%char :: "034"%char :: t)
  = match parse_members f ("034"%char :: t) with
    | Some (l, r') => Some (JObj l, r') | None => None end.
Proof. reflexivity. Qed.

Lemma parse_elems_S (f : nat) (cs : list ascii) :
  parse_elems (S f) cs
  = match parse_value f cs with
    | Some (v, r) =>
        match skip_ws r with
        | ","%char :: r' =>
            match parse_elems f r' with
            | Some (vs, r'') => Some (v :: vs, r'')
            | None => None
            end
        | "]"%char :: r' => Some ([v], r')
        | _ => None
        end
    | None => None
    end.
Proof. reflexivity. Qed.

Ltac stop_tac :=
  solve [left; reflexivity | right; eexists _, _; split; [reflexivity | cbn; tauto]].

Definition roundtrip_upto (n : nat) : Prop :=
  forall v, jsize v <= n -> marshalable v = true ->
  forall f rest, jsize v <= f -> stop rest ->
  parse_value f (marshal v ++ rest)%list = Some (v, rest).

Lemma parse_elems_marshal (n : nat) (l : list json) :
  roundtrip_upto n ->
  Forall (fun e => jsize e <= n /\ marshalable e = true) l -> l <> [] ->
  forall f rest, list_sum (map (fun e => S (jsize e)) l) <= f ->
  parse_elems f (sep_by_comma (map marshal l) ++ "]"%char :: rest)%list = Some (l, rest).
Proof.
  unfold roundtrip_upto. intros IH Hl.
  induction Hl as [|e l [He Hme] Hl IHl]; intros Hne f rest Hf; [congruence|].
  destruct f as [|f]; [cbn in Hf; lia|]. rewrite parse_elems_S.
  destruct l as [|e2 l].
  - cbn [map sep_by_comma]. simpl in Hf.
    rewrite IH by (assumption || lia || stop_tac).
    reflexivity.
  - cbn [map sep_by_comma]. simpl in Hf.
    rewrite <- app_assoc. cbn [app].
    rewrite IH by (assumption || lia || stop_tac).
    cbn [skip_ws is_ws].
    specialize (IHl ltac:(discriminate) f rest). simpl in IHl.
    rewrite IHl by lia. reflexivity.
Qed.

Lemma parse_members_string (f : nat) (r : list ascii) :
  parse_members (S f) ("034"%char :: r)
  = match take_string [] r with
    | Some (k, r1) =>
      match skip_ws r1 with
      | ":"%char :: r2 =>
        match parse_value f r2 with
        | Some (v, r3) =>
            match skip_ws r3 with
            | ","%char :: r4 =>
                match parse_members f r4 with
                | Some (ms, r5) => Some ((k, v) :: ms, r5)
                | None => None
                end
            | "}"%char :: r4 => Some ([(k, v)], r4)
            | _ => None
            end
        | None => None
        end
      | _ => None
      end
    | None => None
    end.
Proof. reflexivity. Qed.

Definition marshal_member (kv : string * json) : list ascii :=
  (quote (fst kv) ++ ":"%char :: marshal (snd kv))%list.

Lemma parse_members_marshal (n : nat) (ms : list (string * json)) :
  roundtrip_upto n ->
  Forall (fun kv => jsize (snd kv) <= n /\ string_ok (fst kv) = true /\
                    marshalable (snd kv) = true) ms ->
  ms <> [] ->
  forall f rest, list_sum (map (fun kv => S (jsize (snd kv))) ms) <= f ->
  parse_members f (sep_by_comma (map marshal_member ms) ++ "}"%char :: rest)%list
  = Some (ms, rest).
Proof.
  unfold roundtrip_upto. intros IH Hms.
  induction Hms as [|[k v] ms (Hv & Hk & Hmv) Hms IHms]; intros Hne f rest Hf; [congruence|].
  destruct f as [|f]; [cbn in Hf; lia|]. cbn [fst snd] in *.
  destruct ms as [|kv2 ms].
  - cbn [map sep_by_comma]. simpl in Hf. unfold marshal_member. cbn [fst snd].
    rewrite <- app_assoc. cbn [app]. rewrite quote_app, parse_members_string.
    rewrite take_string_quote by exact Hk. cbn [skip_ws is_ws].
    rewrite IH by (assumption || lia || stop_tac).
    reflexivity.
  - cbn [map]. rewrite sep_by_comma_cons2. simpl in Hf.
    rewrite <- app_assoc. cbn [app]. unfold marshal_member at 1. cbn [fst snd].
    rewrite <- app_assoc. cbn [app]. rewrite quote_app, parse_members_string.
    rewrite take_string_quote by exact Hk. cbn [skip_ws is_ws].
    rewrite IH by (assumption || lia || stop_tac).
    cbn [skip_ws is_ws].
    specialize (IHms ltac:(discriminate) f rest). cbn [map] in IHms.
    rewrite IHms; [reflexivity | simpl in *; lia].
Qed.

Lemma jsize_pos (v : json) : 1 <= jsize v.
Proof. destruct v; cbn; lia. Qed.

Lemma list_sum_map_In {A} (g : A -> nat) (x : A) (l : list A) :
  In x l -> g x <= list_sum (map g l).
Proof.
  induction l as [|y l IH]; cbn [In]; [tauto|].
  cbn [map list_sum fold_right] in *.
  intros [-> | H]; [lia | specialize (IH H); unfold list_sum in IH; lia].
Qed.

Lemma list_sum_map_le {A} (g h : A -> nat) (l : list A) :
  (forall x, In x l -> g x <= h x) -> list_sum (map g l) <= list_sum (map h l).
Proof.
  induction l as [|y l IH]; cbn [map list_sum fold_right] in *; intros H; [lia|].
  pose proof (H y (or_introl eq_refl)).
  assert (Hl : forall x, In x l -> g x <= h x) by (intros; apply H; right; assumption).
  specialize (IH Hl). unfold list_sum in IH. lia.
Qed.

Lemma sep_by_comma_length (xs : list (list ascii)) :
  list_sum (map (fun x => S (length x)) xs) <= S (length (sep_by_comma xs)).
Proof.
  induction xs as [|x xs IH]; [cbn; lia|].
  destruct xs as [|y xs].
  - cbn. lia.
  - rewrite sep_by_comma_cons2, length_app. cbn [length map list_sum] in *.
    cbn in IH |- *. lia.
Qed.

Lemma arr_elements (n : nat) (l : list json) :
  jsize (JArr l) <= S n -> marshalable (JArr l) = true ->
  Forall (fun e => jsize e <= n /\ marshalable e = true) l.
Proof.
  cbn [jsize marshalable]. intros Hn Hm. apply Forall_forall. intros e He. split.
  - pose proof (list_sum_map_In (fun e => S (jsize e)) e l He). cbn in H. lia.
  - rewrite forallb_forall in Hm. auto.
Qed.

Lemma obj_members (n : nat) (ms : list (string * json)) :
  jsize (JObj ms) <= S n -> marshalable (JObj ms) = true ->
  Forall (fun kv => jsize (snd kv) <= n /\ string_ok (fst kv) = true /\
                    marshalable (snd kv) = true) ms.
Proof.
  cbn [jsize marshalable]. intros Hn Hm. apply Forall_forall. intros kv Hkv.
  rewrite forallb_forall in Hm. pose proof (Hm kv Hkv) as Hb.
  apply andb_prop in Hb. destruct Hb as [Hk Hv].
  pose proof (list_sum_map_In (fun kv => S (jsize (snd kv))) kv ms Hkv). cbn in H.
  repeat split; auto. lia.
Qed.

Lemma jsize_le_length (n : nat) :
  forall v, jsize v <= n -> marshalable v = true -> jsize v <= length (marshal v).
Proof.
  induction n as [|n IH]; intros v Hn Hm; [pose proof (jsize_pos v); lia|].
  destruct v as [| [] | z | raw | s | l | ms]; try discriminate Hm; try (cbn; lia).
  - destruct (int_chars_digits z) as (d0 & ds & Hds & _).
    cbn [marshal jsize]. unfold int_chars. rewrite Hds, length_app. cbn. lia.
  - pose proof (arr_elements n l Hn Hm) as Hl. rewrite Forall_forall in Hl.
    cbn [marshal jsize]. cbn [length]. rewrite length_app. cbn [length].
    pose proof (sep_by_comma_length (map marshal l)) as Hsep. rewrite map_map in Hsep.
    assert (list_sum (map (fun e => S (jsize e)) l)
            <= list_sum (map (fun e => S (length (marshal e))) l)).
    { apply list_sum_map_le. intros e He. destruct (Hl e He) as [H1 H2]. specialize (IH e H1 H2). lia. }
    lia.
  - pose proof (obj_members n ms Hn Hm) as Hms. rewrite Forall_forall in Hms.
    cbn [marshal jsize]. cbn [length]. rewrite length_app. cbn [length].
    pose proof (sep_by_comma_length
      (map (fun kv => (quote (fst kv) ++ ":"%char :: marshal (snd kv))%list) ms)) as Hsep.
    rewrite map_map in Hsep.
    assert (list_sum (map (fun kv => S (jsize (snd kv))) ms)
            <= list_sum (map (fun kv => S (length
                 (quote (fst kv) ++ ":"%char :: marshal (snd kv))%list)) ms)).
    { apply list_sum_map_le. intros kv Hkv. destruct (Hms kv Hkv) as (H1 & _ & H3).
      specialize (IH (snd kv) H1 H3). rewrite length_app. cbn [length]. lia. }
    lia.
Qed.

Lemma roundtrip_all (n : nat) : roundtrip_upto n.
Proof.
  induction n as [|n IH]; intros v Hn Hm f rest Hf Hs; [pose proof (jsize_pos v); lia|].
  destruct f as [|f]; [pose proof (jsize_pos v); lia|].
  destruct v as [| [] | z | raw | s | l | ms]; try discriminate Hm; try reflexivity.
  - apply parse_value_int. exact Hs.
  - cbn [marshal]. rewrite quote_app, parse_value_string, take_string_quote by exact Hm.
    reflexivity.
  - pose proof (arr_elements n l Hn Hm) as Hl.
    destruct l as [|e l]; [reflexivity|].
    assert (Hme : marshalable e = true) by (inversion Hl; tauto).
    destruct (marshal_head e Hme) as (c & t & He & Hc).
    destruct (sep_by_comma_head (marshal e) (map marshal l) c t He) as (t' & Ht').
    cbn [marshal map]. cbn [app]. rewrite <- app_assoc. cbn [app].
    rewrite Ht'. cbn [app]. rewrite parse_value_array by exact Hc.
    rewrite app_comm_cons, <- Ht'.
    change (marshal e :: map marshal l) with (map marshal (e :: l)).
    rewrite (parse_elems_marshal n (e :: l) IH Hl) by (discriminate || (cbn in Hf |- *; lia)).
    reflexivity.
  - pose proof (obj_members n ms Hn Hm) as Hms.
    destruct ms as [|kv ms]; [reflexivity|].
    cbn [marshal]. fold marshal_member.
    change (fun kv0 : string * json => (quote (fst kv0) ++ ":"%char :: marshal (snd kv0))%list)
      with marshal_member.
    assert (Hk : exists t, marshal_member kv = "034"%char :: t) by (eexists; reflexivity).
    destruct Hk as (t & Hk).
    destruct (sep_by_comma_head _ (map marshal_member ms) _ _ Hk) as (t' & Ht').
    cbn [map]. cbn [app]. rewrite <- app_assoc. cbn [app].
    rewrite Ht'. cbn [app]. rewrite parse_value_object.
    rewrite app_comm_cons, <- Ht'.
    change (marshal_member kv :: map marshal_member ms) with (map marshal_member (kv :: ms)).
    rewrite (parse_members_marshal n (kv :: ms) IH Hms) by (discriminate || (cbn in Hf |- *; lia)).
    reflexivity.
Qed.

Lemma parse_document_of_marshal (v : json) :
  marshalable v = true -> parse_document (marshal_string v) = Some v.
Proof.
  intros Hm. unfold parse_document, marshal_string.
  rewrite list_ascii_of_string_of_list_ascii.
  pose proof (roundtrip_all (jsize v) v (le_n _) Hm (S (length (marshal v))) []) as H.
  rewrite app_nil_r in H. rewrite H.
  - reflexivity.
  - pose proof (jsize_le_length (jsize v) v (le_n _) Hm). lia.
  - left. reflexivity.
Qed.

Lemma decode_records_map_JObj (rs : list record) : decode_records (map JObj rs) = Some rs.
Proof. induction rs as [|r rs IH]; cbn; [reflexivity|]. rewrite IH. reflexivity. Qed.

Lemma load_config_of_marshal (fs : filesystem) (path : string) (rs : list record) :
  read_file fs path = Some (marshal_records rs) ->
  Forall (fun r => marshalable (JObj r) = true) rs ->
  load_config fs path = Ok rs.
Proof.
  intros Hf Hrs. unfold load_config. rewrite Hf. unfold marshal_records.
  rewrite parse_document_of_marshal.
  - rewrite decode_records_map_JObj. reflexivity.
  - cbn [marshalable]. apply forallb_forall. intros v Hv.
    apply in_map_iff in Hv as (r & <- & Hr). rewrite Forall_forall in Hrs. auto.
Qed.

(** The cluster records of [TestGetRBDNetNamespaceFilePath], as [json.Marshal]
    sees them (only the members set in the test). *)
Definition rbd_netns_records : list record :=
  [[("clusterID", JStr "cluster-1"); ("monitors", JArr [JStr "ip-1"; JStr "ip-2"]);
    ("rbd", JObj [("netNamespaceFilePath",
                   JStr "/var/lib/kubelet/plugins/rbd.ceph.csi.com/cluster1-net")])];
   [("clusterID", JStr "cluster-2"); ("monitors", JArr [JStr "ip-3"; JStr "ip-4"]);
    ("rbd", JObj [("netNamespaceFilePath",
                   JStr "/var/lib/kubelet/plugins/rbd.ceph.csi.com/cluster2-net")])];
   [("clusterID", JStr "cluster-3"); ("monitors", JArr [JStr "ip-5"; JStr "ip-6"])]].

Definition tmp_conf_path : string := "/tmp/TestGetRBDNetNamespaceFilePath/ceph-csi.json".

(** The text written for a configuration with integers, escapes and nesting. *)
Example marshal_string_sample :
  marshal_string (JArr [JObj [("clusterID", JStr ("c" ++ String "034" "1"));
                              ("rbd", JObj [("mirrorDaemonCount", JInt (-12))]);
                              ("monitors", JArr [])]])
  = doc ("[{'clusterID':'c" ++ String "092" "'1','rbd':{'mirrorDaemonCount':-12},'monitors':[]}]").
Proof. reflexivity. Qed.

(** Go's escapes: [<], [&] and other control characters with [\u00XX], a
    carriage return with [\r], U+2028 with [\u2028], an invalid byte with
    [\ufffd]; valid multi-byte sequences as they are. *)
Example marshal_string_escapes :
  marshal_string (JStr (string_of_list_ascii
    ["<"%char; "&"%char; "013"%char; "001"%char; "226"%char; "128"%char; "168"%char;
     "255"%char; "195"%char; "169"%char]))
  = string_of_list_ascii
      ("034"%char :: list_ascii_of_string "\u003c\u0026\r\u0001\u2028\ufffd" ++
       ["195"%char; "169"%char; "034"%char])%list.
Proof. reflexivity. Qed.

(** A document [json.Marshal] writes is read back by the configuration
    parser as the value it was written from: every value whose strings are
    valid UTF-8 and that holds no non-integer number. *)
Theorem parse_document_marshal (v : json) :
  marshalable v = true -> parse_document (marshal_string v) = Some v.
Proof. exact (parse_document_of_marshal v). Qed.

Lemma parse_document_marshal_witness :
  marshalable (JArr (map JObj rbd_netns_records)) = true /\
  parse_document (marshal_string (JArr (map JObj rbd_netns_records)))
  = Some (JArr (map JObj rbd_netns_records)).
Proof.
  split; [vm_compute; reflexivity|].
  apply parse_document_marshal. vm_compute. reflexivity.
Defined.

(** A configuration file written with [json.Marshal] from a list of
    cluster records loads as exactly those records, in order. *)
Theorem load_config_marshal_records (fs : filesystem) (path : string) (rs : list record) :
  read_file fs path = Some (marshal_records rs) ->
  Forall (fun r => marshalable (JObj r) = true) rs ->
  load_config fs path = Ok rs.
Proof. exact (load_config_of_marshal fs path rs). Qed.

(** Records whose strings Go writes with escapes. *)
Definition escaped_records : list record :=
  [[("clusterID", JStr ("a&b<c>" ++ String "013" (String "195" (String "169" ""))));
    ("monitors", JArr [JStr (String "034" "ip" ++ String "092" "1"); JStr "ip-2"])]].

Lemma load_config_marshal_records_witness :
  load_config [(tmp_conf_path, marshal_records escaped_records)] tmp_conf_path
  = Ok escaped_records.
Proof.
  apply load_config_marshal_records.
  - reflexivity.
  - repeat constructor.
Defined.

End MarshalFacts.

(* ------------------------------------------------------------------ *)
(** ** More of the resolver *)

Module ResolverFacts.
Import Config ConfigFacts.

(** The errors an accessor may report for a request on [path] and
    [clusterID]: each names the request's own path or identifier. *)
Definition request_error (path clusterID : string) (e : cfg_error) : Prop :=
  e = ConfigUnreadable path \/ e = ClusterNotFound clusterID \/
  exists f, e = MalformedRecord clusterID f.

Lemma bind_ok {A B : Type} (a : A) (k : A -> result B) : bind (Ok a) k = k a.
Proof. reflexivity. Qed.

Lemma opt_string_err (clusterID name : string) (sec : record) (e : cfg_error) :
  opt_string clusterID name sec = Err e -> e = MalformedRecord clusterID name.
Proof.
  unfold opt_string. destruct (field name sec) as [[]|]; congruence.
Qed.

Lemma resolve_request_error (fs : filesystem) (path clusterID : string) (e : cfg_error) :
  resolve_cluster fs path clusterID = Err e -> request_error path clusterID e.
Proof.
  intros H. destruct (resolve_cluster_err _ _ _ _ H) as [-> | ->];
    unfold request_error; auto.
Qed.

Ltac resolved acc :=
  intros e; unfold acc;
  destruct (resolve_cluster _ _ _) as [r|e'] eqn:Hr;
  [rewrite bind_ok | rewrite bind_err; intros [= <-]; eapply resolve_request_error; eauto].

(** A missing configuration file: every accessor fails with
    [ConfigUnreadable] on its path, whatever the identifier. *)
Theorem missing_config_unreadable (fs : filesystem) (path clusterID : string) :
  read_file fs path = None ->
  all_accessors_fail fs path clusterID (ConfigUnreadable path).
Proof.
  intros H. apply resolve_err_all.
  unfold resolve_cluster, load_config. rewrite H. reflexivity.
Qed.

Lemma missing_config_unreadable_witness :
  read_file (with_config two_clusters) "./test_artifacts/missing.json" = None /\
  all_accessors_fail (with_config two_clusters) "./test_artifacts/missing.json" "test2"
    (ConfigUnreadable "./test_artifacts/missing.json").
Proof.
  split; [reflexivity|].
  apply missing_config_unreadable. reflexivity.
Defined.

(** Only the first record matching the identifier matters: two readable
    documents at the same path with the same first match give the same
    answer (value or error) from every accessor, whatever other records
    precede or follow it. *)
Theorem accessors_first_match_only (fs1 fs2 : filesystem) (path clusterID : string)
    (rs1 rs2 : list record) :
  load_config fs1 path = Ok rs1 -> load_config fs2 path = Ok rs2 ->
  find_record clusterID rs1 = find_record clusterID rs2 ->
  Mons fs1 path clusterID = Mons fs2 path clusterID /\
  (forall k, GetNetNamespaceFilePath fs1 path clusterID k
             = GetNetNamespaceFilePath fs2 path clusterID k) /\
  GetCephFSMountOptions fs1 path clusterID = GetCephFSMountOptions fs2 path clusterID /\
  GetRBDMirrorDaemonCount fs1 path clusterID = GetRBDMirrorDaemonCount fs2 path clusterID /\
  GetCrushLocationLabels fs1 path clusterID = GetCrushLocationLabels fs2 path clusterID.
Proof.
  intros H1 H2 Hf.
  assert (Hr : resolve_cluster fs1 path clusterID = resolve_cluster fs2 path clusterID).
  { unfold resolve_cluster. rewrite H1, H2, !bind_ok, Hf. reflexivity. }
  unfold Mons, GetNetNamespaceFilePath, GetCephFSMountOptions,
    GetRBDMirrorDaemonCount, GetCrushLocationLabels.
  rewrite Hr. repeat split.
Qed.

Definition one_cluster : string :=
  doc "[{'clusterID':'test2','monitors':['mon1','mon2','mon3']}]".

Lemma accessors_first_match_only_witness :
  Mons (with_config one_cluster) test_path "test2"
  = Mons (with_config two_clusters) test_path "test2".
Proof.
  destruct (accessors_first_match_only (with_config one_cluster) (with_config two_clusters)
              test_path "test2" [record_test2] [record_test2; record_test1])
    as (H & _).
  - reflexivity.
  - reflexivity.
  - reflexivity.
  - exact H.
Defined.

(** No accessor reports an error about another request: every error names
    the path asked for ([ConfigUnreadable]) or the identifier asked for
    ([ClusterNotFound], [MalformedRecord]). *)
Theorem accessor_errors_name_request (fs : filesystem) (path clusterID : string) :
  (forall e, Mons fs path clusterID = Err e -> request_error path clusterID e) /\
  (forall k e, GetNetNamespaceFilePath fs path clusterID k = Err e ->
   request_error path clusterID e) /\
  (forall e, GetCephFSMountOptions fs path clusterID = Err e ->
   request_error path clusterID e) /\
  (forall e, GetRBDMirrorDaemonCount fs path clusterID = Err e ->
   request_error path clusterID e) /\
  (forall e, GetCrushLocationLabels fs path clusterID = Err e ->
   request_error path clusterID e).
Proof.
  unfold request_error.
  split; [|split; [|split; [|split]]].
  - resolved Mons.
    destruct (field "monitors" r) as [[]|]; try (intros [= <-]; eauto).
    destruct (strings_of l) as [[]|]; intros [= <-]; eauto.
  - intros k. resolved GetNetNamespaceFilePath.
    destruct (field (section_name k) r) as [[]|]; try (intros [= <-]; eauto); try discriminate.
    destruct (field "netNamespaceFilePath" fields) as [[]|]; intros [= <-]; eauto.
  - resolved GetCephFSMountOptions.
    destruct (field "cephfs" r) as [[]|]; try (intros [= <-]; eauto); try discriminate.
    destruct (opt_string clusterID "kernelMountOptions" fields) as [k|ek] eqn:Hk;
      [rewrite bind_ok | rewrite bind_err; intros [= <-]; apply opt_string_err in Hk; eauto].
    destruct (opt_string clusterID "fuseMountOptions" fields) as [u|eu] eqn:Hu;
      [rewrite bind_ok; discriminate | rewrite bind_err; intros [= <-]; apply opt_string_err in Hu; eauto].
  - resolved GetRBDMirrorDaemonCount.
    destruct (field "rbd" r) as [[]|]; try (intros [= <-]; eauto); try discriminate.
    destruct (field "mirrorDaemonCount" fields) as [[]|]; intros [= <-]; eauto.
  - resolved GetCrushLocationLabels.
    destruct (field "readAffinity" r) as [[]|]; try (intros [= <-]; eauto); try discriminate.
    destruct (match field "enabled" fields with
              | None => Ok false | Some (JBool b) => Ok b
              | Some _ => Err (MalformedRecord clusterID "readAffinity.enabled") end)
      as [b|eb] eqn:Hb; [rewrite bind_ok | rewrite bind_err; intros [= <-]].
    + destruct (match field "crushLocationLabels" fields with
                | None => Ok [] | Some (JArr l) => match strings_of l with
                    | Some ls => Ok ls
                    | None => Err (MalformedRecord clusterID "readAffinity.crushLocationLabels") end
                | Some _ => Err (MalformedRecord clusterID "readAffinity.crushLocationLabels") end)
        as [ls|el] eqn:Hl; [rewrite bind_ok | rewrite bind_err; intros [= <-]].
      * destruct b; discriminate.
      * destruct (field "crushLocationLabels" fields) as [[]|]; try discriminate;
          try (injection Hl as <-; eauto).
        destruct (strings_of l); [discriminate | injection Hl as <-; eauto].
    + destruct (field "enabled" fields) as [[]|]; try discriminate; injection Hb as <-; eauto.
Qed.

Lemma accessor_errors_name_request_witness :
  Mons (with_config (doc "[{'clusterID':'test2','monitors':['mon1',2,'mon3']}]"))
    test_path "test2" = Err (MalformedRecord "test2" "monitors") /\
  request_error test_path "test2" (MalformedRecord "test2" "monitors").
Proof.
  assert (H : Mons (with_config (doc "[{'clusterID':'test2','monitors':['mon1',2,'mon3']}]"))
                test_path "test2" = Err (MalformedRecord "test2" "monitors")) by reflexivity.
  split; [exact H|].
  exact (proj1 (accessor_errors_name_request _ _ _) _ H).
Defined.

End ResolverFacts.

(* ------------------------------------------------------------------ *)
(** ** More of the executor *)

Module ExecutorMoreFacts.
Import Executor ExecutorFacts.

(** Chunks written in time order, as a pipe delivers them. *)
Fixpoint chronological (chunks : list (nat * string)) : bool :=
  match chunks with
  | c1 :: ((c2 :: _) as chunks') => Nat.leb (fst c1) (fst c2) && chronological chunks'
  | _ => true
  end.

Lemma append_empty_r (s : string) : (s ++ "")%string = s.
Proof. induction s as [|a s IH]; cbn; [reflexivity | rewrite IH; reflexivity]. Qed.

Lemma append_assoc (s1 s2 s3 : string) : (s1 ++ (s2 ++ s3))%string = ((s1 ++ s2) ++ s3)%string.
Proof. induction s1 as [|a s1 IH]; cbn; [reflexivity | rewrite IH; reflexivity]. Qed.

Lemma concat_empty_cons (x : string) (l : list string) :
  String.concat "" (x :: l) = (x ++ String.concat "" l)%string.
Proof. destruct l; cbn; [symmetry; apply append_empty_r | reflexivity]. Qed.

Lemma captured_before_cons (t : nat) (c : nat * string) (chunks : list (nat * string)) :
  captured_before t (c :: chunks)
  = if Nat.ltb (fst c) t then (snd c ++ captured_before t chunks)%string
    else captured_before t chunks.
Proof.
  unfold captured_before. cbn [filter].
  destruct (Nat.ltb (fst c) t); [cbn [map]; apply concat_empty_cons | reflexivity].
Qed.

Lemma captured_all_cons (c : nat * string) (chunks : list (nat * string)) :
  captured_all (c :: chunks) = (snd c ++ captured_all chunks)%string.
Proof. apply concat_empty_cons. Qed.

Lemma captured_before_after (t : nat) (c : nat * string) (chunks : list (nat * string)) :
  chronological (c :: chunks) = true -> t <= fst c -> captured_before t (c :: chunks) = "".
Proof.
  revert c. induction chunks as [|c2 chunks IH]; intros c Hc Ht;
    rewrite captured_before_cons.
  - apply Nat.ltb_ge in Ht. rewrite Ht. reflexivity.
  - apply Nat.ltb_ge in Ht as Ht'. rewrite Ht'.
    cbn [chronological] in Hc. apply andb_prop in Hc as [H12 Hc].
    apply Nat.leb_le in H12. apply IH; [exact Hc | lia].
Qed.

Lemma captured_before_prefix (t : nat) (chunks : list (nat * string)) :
  chronological chunks = true ->
  exists rest, captured_all chunks = (captured_before t chunks ++ rest)%string.
Proof.
  induction chunks as [|c chunks IH]; intros Hc.
  - exists "". reflexivity.
  - assert (Hc' : chronological chunks = true).
    { destruct chunks as [|c2 chunks]; [reflexivity|].
      cbn [chronological] in Hc. apply andb_prop in Hc as [_ Hc]. exact Hc. }
    destruct (Nat.ltb (fst c) t) eqn:Ht.
    + destruct (IH Hc') as (rest & Hr). exists rest.
      rewrite captured_all_cons, captured_before_cons, Ht, Hr. apply append_assoc.
    + apply Nat.ltb_ge in Ht. exists (captured_all (c :: chunks)).
      rewrite (captured_before_after t c chunks Hc Ht). reflexivity.
Qed.

(** Which standard output a call returns: all the program writes when it
    ends before the call's context does; otherwise what it wrote before the
    context ended (deadline or cancellation); either way a prefix of all it
    writes when run to completion. *)
Theorem ExecCommandWithTimeout_stdout_prefix (progs : programs) (h : host) (ctx : context)
    (timeout : nat) (program : string) (args : list string) (b : behaviour) :
  progs program args = Some b ->
  chronological (out_chunks b) = true ->
  let out := fst (fst (fst (ExecCommandWithTimeout progs h ctx timeout program args))) in
  (duration b < run_budget h ctx timeout -> out = captured_all (out_chunks b)) /\
  (run_budget h ctx timeout <= duration b ->
   out = captured_before (run_budget h ctx timeout) (out_chunks b)) /\
  exists rest, captured_all (out_chunks b) = (out ++ rest)%string.
Proof.
  intros Hb Hc. cbv zeta. unfold ExecCommandWithTimeout. rewrite Hb.
  fold (run_budget h ctx timeout).
  destruct (Nat.ltb (duration b) (run_budget h ctx timeout)) eqn:Hlt.
  - apply Nat.ltb_lt in Hlt.
    destruct (Z.eqb (exit_status b) 0); cbn [fst];
      (split; [reflexivity | split; [intros; lia |]]);
      exists ""; symmetry; apply append_empty_r.
  - apply Nat.ltb_ge in Hlt. cbn [fst].
    split; [intros; lia | split; [reflexivity|]].
    apply captured_before_prefix. exact Hc.
Qed.

Lemma ExecCommandWithTimeout_stdout_prefix_witness :
  test_programs "sh" ["-c"; "echo hello; sleep 3"]
  = Some {| duration := 3; exit_status := 0;
            out_chunks := [(0, "hello" ++ nl)]; err_chunks := [] |} /\
  fst (fst (fst (ExecCommandWithTimeout test_programs host0 ctx_todo 1
                   "sh" ["-c"; "echo hello; sleep 3"])))
  = captured_before 1 [(0, "hello" ++ nl)].
Proof.
  split; [reflexivity|].
  destruct (ExecCommandWithTimeout_stdout_prefix test_programs host0 ctx_todo 1
           "sh" ["-c"; "echo hello; sleep 3"]
           {| duration := 3; exit_status := 0;
              out_chunks := [(0, "hello" ++ nl)]; err_chunks := [] |}
           eq_refl eq_refl) as (_ & Hkilled & _).
  exact (Hkilled ltac:(cbv; lia)).
Defined.

(** The call never outlasts its bounds: the clock does not go back, and the
    call returns at most [timeout] after it started and no later than the
    caller's deadline when that deadline is not already past; a program
    that cannot be spawned leaves the host as it was. *)
Theorem ExecCommandWithTimeout_time_bound (progs : programs) (h : host) (ctx : context)
    (timeout : nat) (program : string) (args : list string) :
  let h' := snd (ExecCommandWithTimeout progs h ctx timeout program args) in
  clock h <= clock h' <= clock h + timeout /\
  (forall d, ctx_deadline ctx = Some d -> clock h <= d -> clock h' <= d) /\
  (progs program args = None -> h' = h).
Proof.
  assert (H1 : context_end ctx (clock h) timeout <= effective_deadline ctx (clock h) timeout).
  { unfold context_end. destruct (ctx_cancel ctx) as [c|]; [|lia].
    destruct (Nat.ltb_spec c (effective_deadline ctx (clock h) timeout)); lia. }
  assert (H2 : effective_deadline ctx (clock h) timeout <= clock h + timeout).
  { unfold effective_deadline. destruct (ctx_deadline ctx); lia. }
  assert (H3 : forall d, ctx_deadline ctx = Some d -> effective_deadline ctx (clock h) timeout <= d).
  { unfold effective_deadline. intros d ->. lia. }
  cbv zeta. unfold ExecCommandWithTimeout.
  destruct (progs program args) as [b|] eqn:Hb.
  - destruct (Nat.ltb (duration b) _) eqn:Hlt;
      [apply Nat.ltb_lt in Hlt | apply Nat.ltb_ge in Hlt];
      try destruct (Z.eqb (exit_status b) 0); cbn [snd clock];
      (split; [lia | split; [intros d Hd Hle; specialize (H3 d Hd); lia | discriminate]]).
  - cbn [snd]. split; [lia | split; [|reflexivity]].
    intros d _ Hd. exact Hd.
Qed.

Lemma ExecCommandWithTimeout_time_bound_witness :
  clock (snd (ExecCommandWithTimeout test_programs host0 {| ctx_deadline := Some 2; ctx_cancel := None |}
                10 "sleep" ["3"])) <= 2.
Proof.
  destruct (ExecCommandWithTimeout_time_bound test_programs host0 {| ctx_deadline := Some 2; ctx_cancel := None |}
              10 "sleep" ["3"]) as (_ & H & _).
  apply H; [reflexivity | cbn; lia].
Defined.

End ExecutorMoreFacts.
